(** * OF helpers for network devices (drivers/of/of_net.c)

    A shallow embedding of the PHY-mode and MAC-address resolution helpers
    of [drivers/of/of_net.c], built with [CONFIG_PLAT_TRIOMOTION] and
    [CONFIG_TRIO_FLEX7_MIDI] (so that [NUM_TRIO_MACS] is defined and the
    serial-derived MAC generator is compiled in).

    Integers are [Z] with the wrap-around of the C types written out, byte
    buffers are [list Z], C strings are [string].  Functions that touch the
    driver core (device reference counts, managed allocations, the kernel
    log) run in a small state monad over [kernel]. *)

From Stdlib Require Import ZArith Lia Bool List String Ascii.
From stdpp Require Import base gmap strings.
Import ListNotations.

Local Open Scope string_scope.
Local Open Scope Z_scope.

(** ** Machine integers *)

(** Conversion to [u64]. *)
Definition to_u64 (x : Z) : Z := x mod 2 ^ 64.

(** Conversion of a [u32] argument to [int] (two's complement, as gcc does). *)
Definition to_int (x : Z) : Z := (x + 2 ^ 31) mod 2 ^ 32 - 2 ^ 31.

(** Range of the C type [int]. *)
Definition is_int (x : Z) : Prop := - 2 ^ 31 <= x < 2 ^ 31.

(** ** Error numbers and pointers *)

(** Modelled from the spec: the error codes of section 7 (AllocationFailure,
    NoDevice, ...), with their numbers in include/uapi/asm-generic, and the
    six-byte length of a hardware address. *)
Definition ENOMEM : Z := 12.
Definition ENODEV : Z := 19.
Definition EINVAL : Z := 22.
Definition ERANGE : Z := 34.
Definition ENODATA : Z := 61.
Definition EOVERFLOW : Z := 75.
Definition EILSEQ : Z := 84.

Definition ETH_ALEN : Z := 6.

(** Outcome of a helper that returns 0 and fills an out-parameter, or
    returns a negative errno and leaves the out-parameter alone. *)
Inductive result (A : Type) : Type :=
  | Ok (a : A)
  | Err (errno : Z).
Arguments Ok {A} a.
Arguments Err {A} errno.

(** A [const void *] as the MAC helpers return it: [NULL], an errno encoded
    with [ERR_PTR], or a pointer to a buffer (modelled by its bytes). *)
Inductive ptr : Type :=
  | NULL
  | ERR_PTR (error : Z)
  | Ptr (bytes : list Z).

(** The C truth value of a pointer: [if (addr)]. *)
Definition non_null (p : ptr) : bool :=
  match p with
  | NULL => false
  | ERR_PTR e => negb (e =? 0)
  | Ptr _ => true
  end.

(** ** The device tree *)

(** [struct property]: [length] is the byte length of [value]. *)
Record property : Type := {
  name : string;
  value : list Z;
}.

Definition length_of (pp : property) : Z := Z.of_nat (List.length (value pp)).

(** [struct platform_device], reduced to what this file uses: an identity
    (the key of its reference count) and what [nvmem_get_mac_address]
    answers for it: its return code and the bytes it leaves in the buffer. *)
Record platform_device : Type := {
  dev : nat;
  nvmem_ret : Z;
  nvmem_buf : list Z;
}.

(** [struct device_node]: its properties in list order, and the platform
    device bound to it, if any. *)
Record device_node : Type := {
  properties : list property;
  pdev_of : option platform_device;
}.

(** ** Kernel state *)

(** Lines written with [printk]. *)
Inductive message : Type :=
  | KERN_ERR_serial_out_of_range
  | KERN_INFO_generated_mac (idx : Z) (trio_mac : Z).

Record kernel : Type := {
  of_root : option device_node;      (* what the path "/" resolves to *)
  of_root_refs : Z;                  (* references taken on the root node *)
  device_refs : gmap nat Z;          (* references taken per device *)
  devres : list (nat * list Z);      (* buffers handed out by devm_kmemdup *)
  kmalloc_ok : bool;                 (* whether GFP_KERNEL allocations succeed *)
  dmesg : list message;              (* the kernel log, oldest first *)
}.

Definition refcount (k : kernel) (d : nat) : Z := default 0 (device_refs k !! d).

Definition kern (A : Type) : Type := kernel -> A * kernel.

Definition ret {A} (a : A) : kern A := fun k => (a, k).

Definition bind {A B} (c : kern A) (f : A -> kern B) : kern B :=
  fun k => let (a, k') := c k in f a k'.

Declare Scope kern_scope.
Delimit Scope kern_scope with kern.
Notation "'let*' x ':=' c 'in' f" := (bind c (fun x => f))
  (at level 10, x name, c at level 100, f at level 200,
   format "'[v' 'let*'  x  :=  c  'in' '/' f ']'") : kern_scope.
Notation "c ;; f" := (bind c (fun _ => f))
  (at level 100, f at level 200, right associativity) : kern_scope.
Local Open Scope kern_scope.

(** ** Collaborators outside of_net.c *)

Definition set_device_refs (k : kernel) (m : gmap nat Z) : kernel :=
  {| of_root := of_root k; of_root_refs := of_root_refs k; device_refs := m;
     devres := devres k; kmalloc_ok := kmalloc_ok k; dmesg := dmesg k |}.

(** Modelled from the spec: [get_device] (drivers/base/core.c), the
    "acquire" half of the device reference counting of section 5. *)
Definition get_device (d : platform_device) : kern unit :=
  fun k => (tt, set_device_refs k (<[dev d := refcount k (dev d) + 1]> (device_refs k))).

(** Modelled from the spec: [put_device] (drivers/base/core.c), the
    "release" half of the device reference counting of section 5. *)
Definition put_device (d : platform_device) : kern unit :=
  fun k => (tt, set_device_refs k (<[dev d := refcount k (dev d) - 1]> (device_refs k))).

(** Modelled from the spec: [of_find_device_by_node]
    (drivers/of/platform.c), the device-object lookup by tree node: it
    may find nothing, and a device it finds comes with a reference
    acquired for the caller. *)
Definition of_find_device_by_node (np : device_node) : kern (option platform_device) :=
  match pdev_of np with
  | Some d => get_device d ;; ret (Some d)
  | None => ret None
  end.

(** Modelled from the spec: [devm_kmemdup] (drivers/base/devres.c), the
    allocation of the returned buffer: a copy of the first [len] bytes of
    [src] owned by the device, or nothing when the allocation fails. *)
Definition devm_kmemdup (d : platform_device) (src : list Z) (len : Z)
  : kern (option (list Z)) :=
  fun k =>
    if kmalloc_ok k then
      let buf := firstn (Z.to_nat len) src in
      (Some buf,
       {| of_root := of_root k; of_root_refs := of_root_refs k;
          device_refs := device_refs k; devres := devres k ++ [(dev d, buf)];
          kmalloc_ok := kmalloc_ok k; dmesg := dmesg k |})
    else (None, k).

(** Modelled from the spec: [nvmem_get_mac_address] (net/ethernet/eth.c),
    the persistent-storage MAC lookup by device object: a return code and
    the buffer it filled. *)
Definition nvmem_get_mac_address (d : platform_device) : kern (Z * list Z) :=
  ret (nvmem_ret d, nvmem_buf d).

(** Modelled from the spec: [of_find_node_by_path] (drivers/of/base.c) for
    the path "/": the root of the tree, with a reference taken on it. *)
Definition of_find_root : kern (option device_node) :=
  fun k =>
    match of_root k with
    | Some root =>
        (Some root,
         {| of_root := of_root k; of_root_refs := of_root_refs k + 1;
            device_refs := device_refs k; devres := devres k;
            kmalloc_ok := kmalloc_ok k; dmesg := dmesg k |})
    | None => (None, k)
    end.

(** Modelled from the spec: [printk], the fire-and-forget diagnostic sink. *)
Definition printk (m : message) : kern unit :=
  fun k =>
    (tt, {| of_root := of_root k; of_root_refs := of_root_refs k;
            device_refs := device_refs k; devres := devres k;
            kmalloc_ok := kmalloc_ok k; dmesg := dmesg k ++ [m] |}).

(** Modelled from the spec: [of_find_property] (drivers/of/base.c), the
    raw-bytes read by name: the first property of the node with that name. *)
Definition of_find_property (np : device_node) (propname : string) : option property :=
  List.find (fun pp => String.eqb (name pp) propname) (properties np).

(** Character codes of a C string and back. *)
Definition code (c : ascii) : Z := Z.of_N (N_of_ascii c).
Definition chr (b : Z) : ascii := ascii_of_N (Z.to_N b).

Fixpoint codes (s : string) : list Z :=
  match s with
  | EmptyString => []
  | String c s' => code c :: codes s'
  end.

(** The characters of a byte buffer up to its first NUL, if it has one. *)
Fixpoint c_string (bytes : list Z) : option string :=
  match bytes with
  | [] => None
  | b :: rest =>
      if b =? 0 then Some EmptyString
      else match c_string rest with
           | Some s => Some (String (chr b) s)
           | None => None
           end
  end.

(** Modelled from the spec: [of_property_read_string]
    (drivers/of/property.c), the string read by name, reporting absent
    against present: the NUL-terminated text of the property, [-EINVAL]
    when the property is absent, [-ENODATA] when it has no value and
    [-EILSEQ] when the value is not terminated. *)
Definition of_property_read_string (np : device_node) (propname : string)
  : result string :=
  match of_find_property np propname with
  | None => Err (- EINVAL)
  | Some pp =>
      match value pp with
      | [] => Err (- ENODATA)
      | _ => match c_string (value pp) with
             | Some s => Ok s
             | None => Err (- EILSEQ)
             end
      end
  end.

(** Modelled from the spec: [of_property_read_u32] (include/linux/of.h),
    the read of an unsigned 32-bit cell by name: the first four bytes of
    the value, big-endian; [-EINVAL] when the property is absent,
    [-ENODATA] when it has no value, [-EOVERFLOW] when it is too short. *)
Definition of_property_read_u32 (np : device_node) (propname : string)
  : result Z :=
  match of_find_property np propname with
  | None => Err (- EINVAL)
  | Some pp =>
      match value pp with
      | [] => Err (- ENODATA)
      | b0 :: b1 :: b2 :: b3 :: _ =>
          Ok (Z.lor (Z.shiftl (Z.land b0 255) 24)
             (Z.lor (Z.shiftl (Z.land b1 255) 16)
             (Z.lor (Z.shiftl (Z.land b2 255) 8) (Z.land b3 255))))
      | _ => Err (- EOVERFLOW)
      end
  end.

(** Modelled from the spec: the value of a decimal or hexadecimal digit,
    for [kstrtoll]. *)
Definition digit_value (c : Z) : option Z :=
  let lc := Z.lor c 32 in
  if (48 <=? c) && (c <=? 57) then Some (c - 48)
  else if (97 <=? lc) && (lc <=? 102) then Some (lc - 97 + 10)
  else None.

(** Modelled from the spec: [isxdigit], as [kstrtoll] uses it to detect a
    [0x] prefix. *)
Definition isxdigit (c : Z) : bool :=
  match digit_value c with Some _ => true | None => false end.

(** Modelled from the spec: the digits of [kstrtoll]'s argument: the value
    read so far, the number of digits read, and what follows them. *)
Fixpoint parse_integer (base : Z) (s : list Z) (res : Z) (rv : nat)
  : Z * nat * list Z :=
  match s with
  | [] => (res, rv, s)
  | c :: s' =>
      match digit_value c with
      | Some val =>
          if val <? base then parse_integer base s' (res * base + val) (S rv)
          else (res, rv, s)
      | None => (res, rv, s)
      end
  end.

(** Modelled from the spec: the base auto-detection of [kstrtoll]. *)
Definition parse_integer_fixup_radix (s : list Z) (base : Z) : list Z * Z :=
  let base :=
    if base =? 0 then
      match s with
      | 48 :: x :: d :: _ =>
          if (Z.lor x 32 =? 120) && isxdigit d then 16 else 8
      | 48 :: _ => 8
      | _ => 10
      end
    else base in
  match s with
  | 48 :: x :: s' =>
      if (base =? 16) && (Z.lor x 32 =? 120) then (s', base) else (s, base)
  | _ => (s, base)
  end.

(** Modelled from the spec: the unsigned part of [kstrtoll], after the
    sign. *)
Definition kstrtoull_unsigned (s : list Z) (base : Z) : result Z :=
  let (s, base) := parse_integer_fixup_radix s base in
  let '(res, rv, rest) := parse_integer base s 0 0 in
  if res >? 2 ^ 64 - 1 then Err (- ERANGE)
  else match rv with
       | O => Err (- EINVAL)
       | _ =>
           match rest with
           | [] | [10] => Ok res
           | _ => Err (- EINVAL)
           end
       end.

(** Modelled from the spec: [kstrtoll] (lib/kstrtox.c), the parse of a
    string as a signed integer, auto-detecting the base when [base] is 0: a
    [0x] prefix followed by a hex digit selects 16, another leading 0
    selects 8, anything else 10.  An optional sign comes first, one
    trailing newline is allowed, at least one digit is required
    ([-EINVAL]) and the value has to fit a [long long] ([-ERANGE]). *)
Definition kstrtoll (s : string) (base : Z) : result Z :=
  match codes s with
  | 45 :: s' =>
      match kstrtoull_unsigned s' base with
      | Ok tmp => if tmp >? 2 ^ 63 then Err (- ERANGE) else Ok (- tmp)
      | Err e => Err e
      end
  | s' =>
      let s' := match s' with 43 :: s'' => s'' | _ => s' end in
      match kstrtoull_unsigned s' base with
      | Ok tmp => if tmp >=? 2 ^ 63 then Err (- ERANGE) else Ok tmp
      | Err e => Err e
      end
  end.

(** Modelled from the spec: [tolower], folding the ASCII capitals, for the
    case-insensitive comparison. *)
Definition tolower (c : Z) : Z :=
  if (65 <=? c) && (c <=? 90) then c + 32 else c.

(** The character a C string starts with; the terminating NUL when it is
    empty. *)
Definition head_code (s : string) : Z :=
  match s with
  | EmptyString => 0
  | String c _ => code c
  end.

(** Modelled from the spec: [strcasecmp] (lib/string.c), the
    case-insensitive comparison of two C strings: 0 exactly when they agree
    up to the case of their ASCII letters. *)
Fixpoint strcasecmp (s1 s2 : string) : Z :=
  let c1 := tolower (head_code s1) in
  let c2 := tolower (head_code s2) in
  if (c1 =? c2) && negb (c1 =? 0) then
    match s1, s2 with
    | String _ s1', String _ s2' => strcasecmp s1' s2'
    | _, _ => c1 - c2
    end
  else c1 - c2.

(** Modelled from the spec: [is_multicast_ether_addr]
    (include/linux/etherdevice.h): the least-significant bit of the first
    byte is set. *)
Definition is_multicast_ether_addr (addr : list Z) : bool :=
  Z.testbit (nth 0 addr 0) 0.

(** Modelled from the spec: [is_zero_ether_addr]
    (include/linux/etherdevice.h): the six bytes are all zero. *)
Definition is_zero_ether_addr (addr : list Z) : bool :=
  forallb (fun b => b =? 0) (firstn 6 addr).

(** Modelled from the spec: [is_valid_ether_addr]
    (include/linux/etherdevice.h), the validity check of section 4.2: the
    address is not the all-zero address and its multicast bit is clear. *)
Definition is_valid_ether_addr (addr : list Z) : bool :=
  negb (is_multicast_ether_addr addr) && negb (is_zero_ether_addr addr).

(** ** of_net.c *)

Section PhyModes.

(** The interface-mode name table of include/linux/phy.h, which this
    file only indexes: the name of mode [i], and the number of modes. *)
Variable phy_modes : Z -> string.
Variable PHY_INTERFACE_MODE_MAX : Z.

(** The loop of [of_get_phy_mode], from index [i], with [n] entries of
    the table left to look at. *)
Fixpoint phy_mode_scan (pm : string) (i : Z) (n : nat) : Z :=
  match n with
  | O => - ENODEV
  | S n' =>
      if strcasecmp pm (phy_modes i) =? 0 then i
      else phy_mode_scan pm (i + 1) n'
  end.

Definition of_get_phy_mode (np : device_node) : Z :=
  let scan pm := phy_mode_scan pm 0 (Z.to_nat PHY_INTERFACE_MODE_MAX) in
  match of_property_read_string np "phy-mode" with
  | Ok pm => scan pm
  | Err _ =>
      match of_property_read_string np "phy-connection-type" with
      | Ok pm => scan pm
      | Err err => err
      end
  end.

End PhyModes.

Definition of_get_mac_addr (np : device_node) (propname : string) : ptr :=
  match of_find_property np propname with
  | Some pp =>
      if (length_of pp =? ETH_ALEN) && is_valid_ether_addr (value pp)
      then Ptr (value pp)
      else NULL
  | None => NULL
  end.

Definition of_get_mac_addr_nvmem (np : device_node) : kern ptr :=
  let* pdev := of_find_device_by_node np in
  match pdev with
  | None => ret (ERR_PTR (- ENODEV))
  | Some pdev =>
      let* r := nvmem_get_mac_address pdev in
      let (ret_code, nvmem_mac) := r in
      if negb (ret_code =? 0) then
        put_device pdev ;;
        ret (ERR_PTR ret_code)
      else
        let* mac := devm_kmemdup pdev nvmem_mac ETH_ALEN in
        put_device pdev ;;
        match mac with
        | None => ret (ERR_PTR (- ENOMEM))
        | Some mac => ret (Ptr mac)
        end
  end.

Definition NUM_TRIO_MACS : Z := 2.
Definition BASE_MAC_ADDRESS : Z := 0x001EFBF80001.

Definition trio_generate_mac (idx : Z) : kern Z :=
  let trio_mac := to_u64 (BASE_MAC_ADDRESS + idx) in
  let* root := of_find_root in
  match root with
  | Some root =>
      match of_property_read_string root "serial-number" with
      | Ok pserial =>
          let (ret_code, serial_num) :=
            match kstrtoll pserial 0 with
            | Ok parsed => (0, parsed)
            | Err e => (e, 0)
            end in
          let* serial_num :=
            if (ret_code <? 0) || (serial_num <? 1) || (serial_num >=? 229375)
            then printk KERN_ERR_serial_out_of_range ;; ret 0
            else ret serial_num in
          let trio_mac :=
            to_u64 (BASE_MAC_ADDRESS + serial_num * NUM_TRIO_MACS + idx) in
          printk (KERN_INFO_generated_mac idx trio_mac) ;;
          ret trio_mac
      | Err _ => ret trio_mac
      end
  | None => ret trio_mac
  end.

Definition return_trio_mac (idx : Z) : kern Z := trio_generate_mac idx.

(** The byte-order reversal that [return_trio_mac_reversed] applies to the
    forward value: its six assignments to [reversed], in order. *)
Definition reversed_of (forward : Z) : Z :=
  let reversed := Z.land (Z.shiftr forward 40) 0x00000000000000FF in
  let reversed := Z.lor reversed (Z.land (Z.shiftr forward 24) 0x000000000000FF00) in
  let reversed := Z.lor reversed (Z.land (Z.shiftr forward 8) 0x0000000000FF0000) in
  let reversed := Z.lor reversed (Z.land (to_u64 (Z.shiftl forward 8)) 0x00000000FF000000) in
  let reversed := Z.lor reversed (Z.land (to_u64 (Z.shiftl forward 24)) 0x000000FF00000000) in
  let reversed := Z.lor reversed (Z.land (to_u64 (Z.shiftl forward 40)) 0x0000FF0000000000) in
  reversed.

Definition return_trio_mac_reversed (idx : Z) : kern Z :=
  let* forward := return_trio_mac idx in
  ret (reversed_of forward).

(** The six bytes that [of_get_trio_mac_addr] stores into [trio_mac]. *)
Definition mac_bytes (val : Z) : list Z :=
  [ Z.land (Z.shiftr val 40) 0xff;
    Z.land (Z.shiftr val 32) 0xff;
    Z.land (Z.shiftr val 24) 0xff;
    Z.land (Z.shiftr val 16) 0xff;
    Z.land (Z.shiftr val 8) 0xff;
    Z.land val 0xff ].

Definition of_get_trio_mac_addr (np : device_node) : kern ptr :=
  let* pdev := of_find_device_by_node np in
  match pdev with
  | None => ret (ERR_PTR (- ENODEV))
  | Some pdev =>
      match of_property_read_u32 np "trio-mac-idx" with
      | Ok idx =>
          let* val := return_trio_mac (to_int idx) in
          let trio_mac := mac_bytes val in
          let* mac := devm_kmemdup pdev trio_mac ETH_ALEN in
          put_device pdev ;;
          match mac with
          | None => ret (ERR_PTR (- ENOMEM))
          | Some mac => ret (Ptr mac)
          end
      | Err _ => ret NULL
      end
  end.

Definition of_get_mac_address (np : device_node) : kern ptr :=
  let addr := of_get_mac_addr np "mac-address" in
  if non_null addr then ret addr else
  let* addr := of_get_trio_mac_addr np in
  if non_null addr then ret addr else
  let addr := of_get_mac_addr np "local-mac-address" in
  if non_null addr then ret addr else
  let addr := of_get_mac_addr np "address" in
  if non_null addr then ret addr else
  let addr := of_get_mac_addr np "nvmem-mac-address" in
  if non_null addr then ret addr else
  of_get_mac_addr_nvmem np.

(** ** Sample trees *)

(** The bytes of a string property: the text and its terminating NUL. *)
Definition string_value (s : string) : list Z := codes s ++ [0].

Definition prop (n : string) (v : list Z) : property := {| name := n; value := v |}.

Definition boot (root : option device_node) (alloc : bool) : kernel :=
  {| of_root := root; of_root_refs := 0; device_refs := ∅; devres := [];
     kmalloc_ok := alloc; dmesg := [] |}.

Definition root_with_serial (s : string) : device_node :=
  {| properties := [prop "serial-number" (string_value s)]; pdev_of := None |}.

Definition eth0 : platform_device :=
  {| dev := 0%nat; nvmem_ret := - ENODEV; nvmem_buf := [] |}.

(** ** Vocabulary of the statements *)

(** The characters of a C string: those before its first NUL. *)
Fixpoint c_chars (s : string) : list Z :=
  match s with
  | EmptyString => []
  | String c s' => if code c =? 0 then [] else code c :: c_chars s'
  end.

(** Two strings match case-insensitively when they have the same
    [casefold]. *)
Definition casefold (s : string) : list Z := List.map tolower (c_chars s).

(** What a call leaves alone when it only logs and takes references on the
    root node. *)
Definition same_devices (k k' : kernel) : Prop :=
  of_root k' = of_root k /\ device_refs k' = device_refs k /\
  devres k' = devres k /\ kmalloc_ok k' = kmalloc_ok k.

(** A node with the properties [props], bound to the device [pdev]. *)
Definition node_of (props : list property) (pdev : option platform_device)
  : device_node :=
  {| properties := props; pdev_of := pdev |}.

(** A three-entry sample of the interface-mode name table. *)
Definition sample_modes (i : Z) : string :=
  nth (Z.to_nat i) ["mii"; "rgmii"; "sgmii"] "unknown".

(** The 48-bit value that six bytes spell, most significant byte first. *)
Definition mac_value (bytes : list Z) : Z :=
  fold_left (fun acc b => acc * 256 + b) bytes 0.

(** A kernel state like [boot], with one reference already held on [eth0]. *)
Definition probed (root : option device_node) (alloc : bool) : kernel :=
  {| of_root := root; of_root_refs := 0; device_refs := {[ 0%nat := 1 ]};
     devres := []; kmalloc_ok := alloc; dmesg := [] |}.

(** * Properties *)

(** ** Bits of the byte-order reversal *)

Lemma byte_mask_bits (k n : Z) :
  0 <= k -> 0 <= n ->
  Z.testbit (Z.shiftl 255 k) n = (k <=? n) && (n <? k + 8).
Proof.
  intros Hk Hn. rewrite Z.shiftl_spec by lia. change 255 with (Z.ones 8).
  destruct (Z.leb_spec k n) as [Hle | Hlt]; simpl.
  - rewrite Z.testbit_ones_nonneg by lia.
    destruct (Z.ltb_spec (n - k) 8), (Z.ltb_spec n (k + 8)); lia || reflexivity.
  - apply Z.testbit_neg_r. lia.
Qed.

Lemma to_u64_bits (x n : Z) :
  0 <= n -> Z.testbit (to_u64 x) n = (n <? 64) && Z.testbit x n.
Proof.
  intros Hn. unfold to_u64. apply Z.testbit_mod_pow2. lia.
Qed.

Ltac decide_order :=
  repeat match goal with
         | |- context [?a <=? ?b] => destruct (Z.leb_spec a b); try lia
         | |- context [?a <? ?b] => destruct (Z.ltb_spec a b); try lia
         end.

Lemma reversed_of_unfold (f : Z) :
  reversed_of f =
  Z.lor (Z.lor (Z.lor (Z.lor (Z.lor
    (Z.land (Z.shiftr f 40) (Z.shiftl 255 0))
    (Z.land (Z.shiftr f 24) (Z.shiftl 255 8)))
    (Z.land (Z.shiftr f 8) (Z.shiftl 255 16)))
    (Z.land (to_u64 (Z.shiftl f 8)) (Z.shiftl 255 24)))
    (Z.land (to_u64 (Z.shiftl f 24)) (Z.shiftl 255 32)))
    (Z.land (to_u64 (Z.shiftl f 40)) (Z.shiftl 255 40)).
Proof. reflexivity. Qed.

Lemma reversed_of_bits (f n : Z) :
  0 <= n ->
  Z.testbit (reversed_of f) n =
  (n <? 48) && Z.testbit f (n + 40 - 16 * (n / 8)).
Proof.
  intros Hn. rewrite reversed_of_unfold.
  repeat rewrite ?Z.lor_spec, ?Z.land_spec, ?to_u64_bits, ?Z.shiftr_spec,
    ?byte_mask_bits by lia.
  assert (Hq : 0 <= n / 8) by (apply Z.div_pos; lia).
  assert (Hm : 8 * (n / 8) <= n < 8 * (n / 8) + 8)
    by (pose proof (Z.mod_pos_bound n 8); pose proof (Z.div_mod n 8); lia).
  destruct (Z.ltb_spec n 48) as [H48 | H48].
  - assert (Hc : n / 8 = 0 \/ n / 8 = 1 \/ n / 8 = 2 \/ n / 8 = 3 \/
                 n / 8 = 4 \/ n / 8 = 5) by lia.
    destruct Hc as [E | [E | [E | [E | [E | E]]]]]; rewrite E in *;
      decide_order; simpl;
      rewrite ?Bool.andb_false_r, ?Bool.andb_true_r, ?Bool.orb_false_r,
        ?Bool.orb_false_l, ?Z.shiftl_spec by lia;
      f_equal; lia.
  - decide_order; simpl;
      rewrite ?Bool.andb_false_r, ?Bool.andb_true_r, ?Bool.orb_false_r;
      reflexivity.
Qed.

Lemma reversed_of_range (f : Z) : 0 <= reversed_of f < 2 ^ 48.
Proof.
  assert (Hnn : 0 <= reversed_of f).
  { rewrite reversed_of_unfold.
    repeat (apply Z.lor_nonneg; split); apply Z.land_nonneg; right;
      apply Z.shiftl_nonneg; lia. }
  split; [exact Hnn |].
  replace (reversed_of f) with (reversed_of f mod 2 ^ 48).
  - apply Z.mod_pos_bound. lia.
  - apply Z.bits_inj'. intros n Hn.
    rewrite Z.testbit_mod_pow2 by lia.
    rewrite reversed_of_bits by lia.
    destruct (n <? 48); reflexivity.
Qed.

Lemma high_bits_clear (x n : Z) :
  0 <= x < 2 ^ 48 -> 48 <= n -> Z.testbit x n = false.
Proof.
  intros Hx Hn. rewrite <- (Z.mod_small x (2 ^ 48)) by lia.
  apply Z.mod_pow2_bits_high. lia.
Qed.

Lemma reversed_of_twice (x : Z) :
  0 <= x < 2 ^ 48 -> reversed_of (reversed_of x) = x.
Proof.
  intros Hx. apply Z.bits_inj'. intros n Hn.
  rewrite reversed_of_bits by lia.
  destruct (Z.ltb_spec n 48) as [H48 | H48]; simpl.
  - rewrite reversed_of_bits by (Z.div_mod_to_equations; lia).
    replace ((n + 40 - 16 * (n / 8)) / 8) with (5 - n / 8)
      by (Z.div_mod_to_equations; lia).
    replace (n + 40 - 16 * (n / 8) <? 48) with true
      by (symmetry; apply Z.ltb_lt; Z.div_mod_to_equations; lia).
    simpl. f_equal. Z.div_mod_to_equations; lia.
  - symmetry. apply high_bits_clear; lia.
Qed.

Lemma byte_of_reversed (f i : Z) :
  0 <= i < 6 ->
  Z.land (Z.shiftr (reversed_of f) (8 * i)) 0xff =
  Z.land (Z.shiftr f (8 * (5 - i))) 0xff.
Proof.
  intros Hi. apply Z.bits_inj'. intros n Hn.
  change 0xff with (Z.shiftl 255 0).
  rewrite !Z.land_spec, !Z.shiftr_spec, !byte_mask_bits, reversed_of_bits by lia.
  destruct (Z.ltb_spec n (0 + 8)) as [H8 | H8];
    [| rewrite !Bool.andb_false_r; reflexivity].
  replace (n + 8 * i <? 48) with true by (symmetry; apply Z.ltb_lt; lia).
  replace ((n + 8 * i) / 8) with i by (Z.div_mod_to_equations; lia).
  simpl. do 2 f_equal. lia.
Qed.

Lemma mac_bytes_reversed (f : Z) :
  mac_bytes (reversed_of f) = rev (mac_bytes f).
Proof.
  unfold mac_bytes. simpl rev.
  pose proof (byte_of_reversed f 0 ltac:(lia)) as H0.
  pose proof (byte_of_reversed f 1 ltac:(lia)) as H1.
  pose proof (byte_of_reversed f 2 ltac:(lia)) as H2.
  pose proof (byte_of_reversed f 3 ltac:(lia)) as H3.
  pose proof (byte_of_reversed f 4 ltac:(lia)) as H4.
  pose proof (byte_of_reversed f 5 ltac:(lia)) as H5.
  change (8 * 0) with 0 in *. change (8 * 1) with 8 in *.
  change (8 * 2) with 16 in *. change (8 * 3) with 24 in *.
  change (8 * 4) with 32 in *. change (8 * 5) with 40 in *.
  change (8 * (5 - 0)) with 40 in *. change (8 * (5 - 1)) with 32 in *.
  change (8 * (5 - 2)) with 24 in *. change (8 * (5 - 3)) with 16 in *.
  change (8 * (5 - 4)) with 8 in *. change (8 * (5 - 5)) with 0 in *.
  rewrite Z.shiftr_0_r in H0, H5.
  rewrite H0, H1, H2, H3, H4, H5. reflexivity.
Qed.

(** ** The serial-derived generator *)

Lemma to_u64_small (x : Z) : 0 <= x < 2 ^ 64 -> to_u64 x = x.
Proof. intros Hx. unfold to_u64. apply Z.mod_small. exact Hx. Qed.

Lemma to_int_range (x : Z) : is_int (to_int x).
Proof.
  unfold is_int, to_int. pose proof (Z.mod_pos_bound (x + 2 ^ 31) (2 ^ 32)). lia.
Qed.

Lemma to_int_small (x : Z) : 0 <= x < 2 ^ 31 -> to_int x = x.
Proof.
  intros Hx. unfold to_int. rewrite Z.mod_small by lia. lia.
Qed.

(** Whatever the tree holds, the generator returns
    [BASE_MAC_ADDRESS + serial * NUM_TRIO_MACS + idx] for some serial
    contribution in [0, 229375), and touches no device. *)
Lemma trio_generate_mac_spec (idx : Z) (k : kernel) :
  exists serial k',
    trio_generate_mac idx k =
      (to_u64 (BASE_MAC_ADDRESS + serial * NUM_TRIO_MACS + idx), k') /\
    0 <= serial < 229375 /\ same_devices k k'.
Proof.
  unfold trio_generate_mac, bind, of_find_root, same_devices.
  destruct (of_root k) as [root |] eqn:Hroot.
  - destruct (of_property_read_string root "serial-number") as [pserial | e].
    + destruct (kstrtoll pserial 0) as [parsed | e].
      * destruct ((0 <? 0) || (parsed <? 1) || (parsed >=? 229375)) eqn:Hc.
        -- exists 0. eexists. split; [reflexivity |]. simpl.
           repeat split; lia.
        -- exists parsed. eexists. split; [reflexivity |]. simpl.
           apply Bool.orb_false_elim in Hc as [Hc Hhi].
           apply Bool.orb_false_elim in Hc as [_ Hlo].
           repeat split; lia.
      * replace ((e <? 0) || (0 <? 1) || (0 >=? 229375)) with true
          by (destruct (e <? 0); reflexivity).
        exists 0. eexists. split; [reflexivity |]. simpl.
        repeat split; lia.
    + exists 0. eexists. split; [simpl; rewrite Z.add_0_r; reflexivity |].
      simpl. repeat split; lia.
  - exists 0. eexists. split; [simpl; rewrite Z.add_0_r; reflexivity |].
    repeat split; (lia || assumption).
Qed.

Lemma generated_fits (serial idx : Z) :
  0 <= serial < 229375 -> is_int idx ->
  to_u64 (BASE_MAC_ADDRESS + serial * NUM_TRIO_MACS + idx) =
  BASE_MAC_ADDRESS + serial * NUM_TRIO_MACS + idx.
Proof.
  unfold is_int, BASE_MAC_ADDRESS, NUM_TRIO_MACS. intros Hs Hi.
  apply to_u64_small. lia.
Qed.

Lemma trio_generate_mac_accepted (k : kernel) (root : device_node)
    (pserial : string) (serial idx : Z) :
  of_root k = Some root ->
  of_property_read_string root "serial-number" = Ok pserial ->
  kstrtoll pserial 0 = Ok serial ->
  1 <= serial < 229375 ->
  fst (trio_generate_mac idx k) =
  to_u64 (BASE_MAC_ADDRESS + serial * NUM_TRIO_MACS + idx).
Proof.
  intros Hroot Hread Hparse Hrange.
  unfold trio_generate_mac, bind, of_find_root.
  rewrite Hroot, Hread, Hparse.
  replace ((0 <? 0) || (serial <? 1) || (serial >=? 229375)) with false; [reflexivity |].
  symmetry. apply Bool.orb_false_intro; [apply Bool.orb_false_intro |]; lia.
Qed.

Lemma trio_generate_mac_degraded (k : kernel) (root : device_node)
    (pserial : string) (idx : Z) :
  of_root k = Some root ->
  of_property_read_string root "serial-number" = Ok pserial ->
  (forall serial, kstrtoll pserial 0 = Ok serial -> serial < 1 \/ 229375 <= serial) ->
  fst (trio_generate_mac idx k) =
    to_u64 (BASE_MAC_ADDRESS + 0 * NUM_TRIO_MACS + idx) /\
  dmesg (snd (trio_generate_mac idx k)) =
    (dmesg k ++ [KERN_ERR_serial_out_of_range;
                 KERN_INFO_generated_mac idx
                   (to_u64 (BASE_MAC_ADDRESS + 0 * NUM_TRIO_MACS + idx))])%list.
Proof.
  intros Hroot Hread Hout.
  unfold trio_generate_mac, bind, of_find_root.
  rewrite Hroot, Hread.
  destruct (kstrtoll pserial 0) as [parsed | e].
  - replace ((0 <? 0) || (parsed <? 1) || (parsed >=? 229375)) with true.
    + simpl. rewrite <- app_assoc. split; reflexivity.
    + symmetry. destruct (Hout parsed eq_refl) as [Hlo | Hhi].
      * replace (parsed <? 1) with true by lia. reflexivity.
      * replace (parsed >=? 229375) with true by lia.
        apply Bool.orb_true_r.
  - replace ((e <? 0) || (0 <? 1) || (0 >=? 229375)) with true
      by (destruct (e <? 0); reflexivity).
    simpl. rewrite <- app_assoc. split; reflexivity.
Qed.

(** C3: for every [int] index and every serial number accepted as in
    range (an integer in [1, 229375) parsed from the root "serial-number"
    string), [trio_generate_mac] returns
    [BASE_MAC_ADDRESS + serial * NUM_TRIO_MACS + idx], with base
    0x001EFBF80001 and two addresses per device; with index 1 and the
    serial-number string "5" the generated address is 0x001EFBF8000C. *)
Theorem trio_generate_mac_formula :
  (forall (k : kernel) (root : device_node) (pserial : string) (serial idx : Z),
      of_root k = Some root ->
      of_property_read_string root "serial-number" = Ok pserial ->
      kstrtoll pserial 0 = Ok serial ->
      1 <= serial < 229375 ->
      is_int idx ->
      fst (trio_generate_mac idx k) =
      BASE_MAC_ADDRESS + serial * NUM_TRIO_MACS + idx) /\
  BASE_MAC_ADDRESS = 0x001EFBF80001 /\ NUM_TRIO_MACS = 2 /\
  (forall alloc,
      fst (trio_generate_mac 1 (boot (Some (root_with_serial "5")) alloc)) =
      0x001EFBF8000C).
Proof.
  split; [| repeat split].
  intros k root pserial serial idx Hroot Hread Hparse Hrange Hidx.
  rewrite (trio_generate_mac_accepted k root pserial serial idx) by assumption.
  apply generated_fits; [lia | exact Hidx].
Qed.

Lemma trio_generate_mac_formula_witness :
  fst (trio_generate_mac 1 (boot (Some (root_with_serial "229374")) true)) =
  BASE_MAC_ADDRESS + 229374 * NUM_TRIO_MACS + 1.
Proof.
  apply (proj1 trio_generate_mac_formula
           (boot (Some (root_with_serial "229374")) true)
           (root_with_serial "229374") "229374" 229374 1).
  - reflexivity.
  - reflexivity.
  - reflexivity.
  - lia.
  - unfold is_int. lia.
Defined.

(** C5: a root "serial-number" string that does not parse, or parses to a
    value below 1 or at least 229375 (among them 0, 229375, -1 and
    non-numeric text), degrades to serial 0 in the generated address
    without failing the call, while the values 1 and 229374 enter the
    generation formula as they are. *)
Theorem trio_generate_mac_range_policy :
  (forall (k : kernel) (root : device_node) (pserial : string) (idx : Z),
      of_root k = Some root ->
      of_property_read_string root "serial-number" = Ok pserial ->
      is_int idx ->
      (forall serial, kstrtoll pserial 0 = Ok serial ->
                      serial < 1 \/ 229375 <= serial) ->
      fst (trio_generate_mac idx k) = BASE_MAC_ADDRESS + 0 * NUM_TRIO_MACS + idx) /\
  (forall (k : kernel) (root : device_node) (pserial : string) (serial idx : Z),
      of_root k = Some root ->
      of_property_read_string root "serial-number" = Ok pserial ->
      is_int idx ->
      kstrtoll pserial 0 = Ok serial ->
      serial = 1 \/ serial = 229374 ->
      fst (trio_generate_mac idx k) =
      BASE_MAC_ADDRESS + serial * NUM_TRIO_MACS + idx) /\
  (forall alloc idx,
      is_int idx ->
      let generate s := fst (trio_generate_mac idx (boot (Some (root_with_serial s)) alloc)) in
      generate "0" = BASE_MAC_ADDRESS + idx /\
      generate "229375" = BASE_MAC_ADDRESS + idx /\
      generate "-1" = BASE_MAC_ADDRESS + idx /\
      generate "not a number" = BASE_MAC_ADDRESS + idx /\
      generate "1" = BASE_MAC_ADDRESS + 1 * NUM_TRIO_MACS + idx /\
      generate "229374" = BASE_MAC_ADDRESS + 229374 * NUM_TRIO_MACS + idx).
Proof.
  split; [| split].
  - intros k root pserial idx Hroot Hread Hidx Hout.
    destruct (trio_generate_mac_degraded k root pserial idx Hroot Hread Hout)
      as [Hval _].
    rewrite Hval. apply generated_fits; [lia | exact Hidx].
  - intros k root pserial serial idx Hroot Hread Hidx Hparse Hser.
    rewrite (trio_generate_mac_accepted k root pserial serial idx)
      by (assumption || lia).
    apply generated_fits; [lia | exact Hidx].
  - intros alloc idx Hidx generate.
    pose proof (generated_fits 0 idx ltac:(lia) Hidx) as H0.
    pose proof (generated_fits 1 idx ltac:(lia) Hidx) as H1.
    pose proof (generated_fits 229374 idx ltac:(lia) Hidx) as H2.
    rewrite Z.add_0_r in H0.
    repeat split; unfold generate; cbn; assumption.
Qed.

Lemma trio_generate_mac_range_policy_witness :
  fst (trio_generate_mac 0 (boot (Some (root_with_serial "229375")) true)) =
    BASE_MAC_ADDRESS + 0 * NUM_TRIO_MACS + 0 /\
  fst (trio_generate_mac 0 (boot (Some (root_with_serial "1")) true)) =
    BASE_MAC_ADDRESS + 1 * NUM_TRIO_MACS + 0.
Proof.
  split.
  - apply (proj1 trio_generate_mac_range_policy
             (boot (Some (root_with_serial "229375")) true)
             (root_with_serial "229375") "229375" 0).
    + reflexivity.
    + reflexivity.
    + unfold is_int. lia.
    + intros serial Hparse. vm_compute in Hparse.
      injection Hparse as <-. right. lia.
  - apply (proj1 (proj2 trio_generate_mac_range_policy)
             (boot (Some (root_with_serial "1")) true)
             (root_with_serial "1") "1" 1 0).
    + reflexivity.
    + reflexivity.
    + unfold is_int. lia.
    + reflexivity.
    + left. reflexivity.
Defined.

(** C6: the byte-order reversal of [return_trio_mac_reversed] is
    self-inverse on 48-bit values: applied twice to any such [x] it
    returns [x]; it maps the six bytes of [x] to the same bytes in
    reverse order (byte 0 with byte 5, byte 1 with byte 4, byte 2 with
    byte 3); and applied once to an [x] whose six bytes are not a
    palindrome it yields a value different from [x]. *)
Theorem reversed_of_self_inverse (x : Z) :
  0 <= x < 2 ^ 48 ->
  reversed_of (reversed_of x) = x /\
  mac_bytes (reversed_of x) = rev (mac_bytes x) /\
  (mac_bytes x <> rev (mac_bytes x) -> reversed_of x <> x).
Proof.
  intros Hx. split; [apply reversed_of_twice; exact Hx |].
  split; [apply mac_bytes_reversed |].
  intros Hpal Hfix. apply Hpal.
  rewrite <- mac_bytes_reversed, Hfix. reflexivity.
Qed.

Lemma reversed_of_self_inverse_witness :
  reversed_of (reversed_of 0x001EFBF8000C) = 0x001EFBF8000C /\
  mac_bytes (reversed_of 0x001EFBF8000C) = rev (mac_bytes 0x001EFBF8000C) /\
  (mac_bytes 0x001EFBF8000C <> rev (mac_bytes 0x001EFBF8000C) ->
   reversed_of 0x001EFBF8000C <> 0x001EFBF8000C).
Proof.
  apply (reversed_of_self_inverse 0x001EFBF8000C). lia.
Defined.

(** C10: for every index and every kernel state (any serial number, any
    forward value produced by [return_trio_mac]), the value returned by
    [return_trio_mac_reversed] fits in 48 bits: its upper 16 bits are
    zero. *)
Theorem return_trio_mac_reversed_48_bits (idx : Z) (k : kernel) :
  0 <= fst (return_trio_mac_reversed idx k) < 2 ^ 48 /\
  Z.shiftr (fst (return_trio_mac_reversed idx k)) 48 = 0.
Proof.
  unfold return_trio_mac_reversed, bind.
  destruct (return_trio_mac idx k) as [forward k']. simpl.
  pose proof (reversed_of_range forward) as Hr.
  split; [exact Hr |].
  rewrite Z.shiftr_div_pow2 by lia. apply Z.div_small. exact Hr.
Qed.

(** ** The generated address is a valid one *)

Lemma byte_zero_bits (val k n : Z) :
  0 <= k -> Z.land (Z.shiftr val k) 0xff = 0 -> k <= n < k + 8 ->
  Z.testbit val n = false.
Proof.
  intros Hk Hz Hn.
  assert (Hbit : Z.testbit (Z.land (Z.shiftr val k) 0xff) (n - k) = false)
    by (rewrite Hz; apply Z.bits_0).
  change 0xff with (Z.ones 8) in Hbit.
  rewrite Z.land_spec, Z.shiftr_spec, Z.testbit_ones_nonneg in Hbit by lia.
  replace (n - k + k) with n in Hbit by lia.
  replace (n - k <? 8) with true in Hbit by lia.
  rewrite Bool.andb_true_r in Hbit. exact Hbit.
Qed.

Lemma mac_bytes_zero (val : Z) :
  0 <= val < 2 ^ 48 -> mac_bytes val = [0; 0; 0; 0; 0; 0] -> val = 0.
Proof.
  intros Hval Hz. unfold mac_bytes in Hz.
  injection Hz as H0 H1 H2 H3 H4 H5.
  rewrite <- (Z.shiftr_0_r val) in H5.
  apply Z.bits_inj'. intros n Hn. rewrite Z.bits_0.
  destruct (Z.lt_ge_cases n 8); [apply (byte_zero_bits val 0 n); (lia || assumption) |].
  destruct (Z.lt_ge_cases n 16); [apply (byte_zero_bits val 8 n); (lia || assumption) |].
  destruct (Z.lt_ge_cases n 24); [apply (byte_zero_bits val 16 n); (lia || assumption) |].
  destruct (Z.lt_ge_cases n 32); [apply (byte_zero_bits val 24 n); (lia || assumption) |].
  destruct (Z.lt_ge_cases n 40); [apply (byte_zero_bits val 32 n); (lia || assumption) |].
  destruct (Z.lt_ge_cases n 48); [apply (byte_zero_bits val 40 n); (lia || assumption) |].
  apply high_bits_clear; assumption.
Qed.

Lemma mac_bytes_first_zero (val : Z) :
  0 <= val < 2 ^ 40 -> nth 0 (mac_bytes val) 0 = 0.
Proof.
  intros Hval. unfold mac_bytes. cbn [nth].
  rewrite Z.shiftr_div_pow2 by lia.
  rewrite Z.div_small by lia. reflexivity.
Qed.

Lemma mac_bytes_valid (val : Z) :
  0 < val < 2 ^ 40 -> is_valid_ether_addr (mac_bytes val) = true.
Proof.
  intros Hval. unfold is_valid_ether_addr, is_multicast_ether_addr.
  rewrite mac_bytes_first_zero by lia.
  change (negb (Z.testbit 0 0)) with true.
  rewrite Bool.andb_true_l. apply Bool.negb_true_iff.
  destruct (is_zero_ether_addr (mac_bytes val)) eqn:Hz; [exfalso | reflexivity].
  unfold is_zero_ether_addr, mac_bytes in Hz. cbn [forallb firstn] in Hz.
  repeat (apply Bool.andb_true_iff in Hz; destruct Hz as [?Hb Hz]).
  assert (val = 0); [| lia].
  apply mac_bytes_zero; [lia |].
  unfold mac_bytes. repeat f_equal; apply Z.eqb_eq; assumption.
Qed.

Lemma of_property_read_u32_range (np : device_node) (propname : string) (idx : Z) :
  of_property_read_u32 np propname = Ok idx -> 0 <= idx < 2 ^ 32.
Proof.
  unfold of_property_read_u32.
  destruct (of_find_property np propname) as [pp |]; [| discriminate].
  destruct (value pp) as [| b0 [| b1 [| b2 [| b3 rest]]]]; try discriminate.
  intros [= <-].
  assert (Hbyte : forall b, 0 <= Z.land b 255 < 256).
  { intros b. change 255 with (Z.ones 8). rewrite Z.land_ones by lia.
    apply Z.mod_pos_bound. lia. }
  pose proof (Hbyte b0). pose proof (Hbyte b1).
  pose proof (Hbyte b2). pose proof (Hbyte b3).
  assert (Hsmall : forall a, 0 <= a -> 0 <= a < 2 ^ 32 <-> (forall n, 32 <= n -> Z.testbit a n = false)).
  { intros a Ha. split.
    - intros Hr n Hn. rewrite <- (Z.mod_small a (2 ^ 32)) by lia.
      apply Z.mod_pow2_bits_high. lia.
    - intros Hb. split; [exact Ha |].
      replace a with (a mod 2 ^ 32); [apply Z.mod_pos_bound; lia |].
      apply Z.bits_inj'. intros n Hn. rewrite Z.testbit_mod_pow2 by lia.
      destruct (Z.ltb_spec n 32); [reflexivity |]. simpl. symmetry. apply Hb. lia. }
  apply Hsmall.
  - repeat (apply Z.lor_nonneg; split); try apply Z.shiftl_nonneg; lia.
  - intros n Hn. rewrite !Z.lor_spec, !Z.shiftl_spec by lia.
    change 255 with (Z.ones 8). rewrite !Z.land_spec.
    rewrite !Z.testbit_ones_nonneg by lia.
    replace (n - 24 <? 8) with false by lia.
    replace (n - 16 <? 8) with false by lia.
    replace (n - 8 <? 8) with false by lia.
    replace (n <? 8) with false by lia.
    rewrite !Bool.andb_false_r. reflexivity.
Qed.

Lemma generated_for_u32 (serial idx : Z) :
  0 <= serial < 229375 ->
  0 < to_u64 (BASE_MAC_ADDRESS + serial * NUM_TRIO_MACS + to_int idx) < 2 ^ 40.
Proof.
  intros Hs. pose proof (to_int_range idx) as Hi.
  rewrite generated_fits by assumption.
  unfold is_int, BASE_MAC_ADDRESS, NUM_TRIO_MACS in *. lia.
Qed.

(** ** Device references *)

Lemma refcount_get_device (d : platform_device) (k : kernel) (d' : nat) :
  refcount (snd (get_device d k)) d' =
  if decide (dev d = d') then refcount k d' + 1 else refcount k d'.
Proof.
  unfold get_device, refcount. simpl. rewrite lookup_insert.
  destruct (decide (dev d = d')) as [<- |]; reflexivity.
Qed.

Lemma refcount_put_device (d : platform_device) (k : kernel) (d' : nat) :
  refcount (snd (put_device d k)) d' =
  if decide (dev d = d') then refcount k d' - 1 else refcount k d'.
Proof.
  unfold put_device, refcount. simpl. rewrite lookup_insert.
  destruct (decide (dev d = d')) as [<- |]; reflexivity.
Qed.

Lemma refcount_get_put (d : platform_device) (k k1 : kernel) (d' : nat) :
  device_refs k1 = device_refs (snd (get_device d k)) ->
  refcount (snd (put_device d k1)) d' = refcount k d'.
Proof.
  intros Hsame. rewrite refcount_put_device.
  assert (Hk1 : forall x, refcount k1 x = refcount (snd (get_device d k)) x)
    by (intros x; unfold refcount; rewrite Hsame; reflexivity).
  rewrite Hk1, refcount_get_device.
  destruct (decide (dev d = d')); lia.
Qed.

(** [of_get_mac_addr_nvmem] releases the reference it acquired on every
    path. *)
Lemma of_get_mac_addr_nvmem_balanced (np : device_node) (k : kernel) (d' : nat) :
  refcount (snd (of_get_mac_addr_nvmem np k)) d' = refcount k d'.
Proof.
  unfold of_get_mac_addr_nvmem, of_find_device_by_node.
  destruct (pdev_of np) as [d |]; [| reflexivity].
  unfold bind, nvmem_get_mac_address, ret.
  destruct (get_device d k) as [[] k1] eqn:Hget.
  assert (Hk1 : k1 = snd (get_device d k)) by (rewrite Hget; reflexivity).
  destruct (negb (nvmem_ret d =? 0)).
  - destruct (put_device d k1) as [[] k2] eqn:Hput.
    replace k2 with (snd (put_device d k1)) by (rewrite Hput; reflexivity).
    cbn [snd]. apply refcount_get_put. rewrite Hk1. reflexivity.
  - unfold devm_kmemdup.
    destruct (kmalloc_ok k1).
    + match goal with
      | |- context [put_device d ?k2] =>
          destruct (put_device d k2) as [[] k3] eqn:Hput;
          replace k3 with (snd (put_device d k2)) by (rewrite Hput; reflexivity)
      end.
      cbn [snd]. apply refcount_get_put. simpl. rewrite Hk1. reflexivity.
    + destruct (put_device d k1) as [[] k2] eqn:Hput.
      replace k2 with (snd (put_device d k1)) by (rewrite Hput; reflexivity).
      cbn [snd]. apply refcount_get_put. rewrite Hk1. reflexivity.
Qed.

(** With a device bound to the node and a readable "trio-mac-idx", the
    vendor step returns the generated address (or [-ENOMEM] when the
    buffer cannot be allocated) and releases the device reference. *)
Lemma of_get_trio_mac_addr_generated (np : device_node) (k : kernel)
    (d : platform_device) (idx : Z) :
  pdev_of np = Some d ->
  of_property_read_u32 np "trio-mac-idx" = Ok idx ->
  exists serial,
    0 <= serial < 229375 /\
    fst (of_get_trio_mac_addr np k) =
      (if kmalloc_ok k
       then Ptr (mac_bytes (to_u64 (BASE_MAC_ADDRESS + serial * NUM_TRIO_MACS + to_int idx)))
       else ERR_PTR (- ENOMEM)) /\
    forall d', refcount (snd (of_get_trio_mac_addr np k)) d' = refcount k d'.
Proof.
  intros Hpdev Hread.
  unfold of_get_trio_mac_addr, of_find_device_by_node, return_trio_mac.
  rewrite Hpdev, Hread. unfold bind, ret.
  destruct (get_device d k) as [[] k1] eqn:Hget.
  assert (Hk1 : k1 = snd (get_device d k)) by (rewrite Hget; reflexivity).
  destruct (trio_generate_mac_spec (to_int idx) k1)
    as (serial & k2 & Hgen & Hser & _ & Hrefs & _ & Halloc).
  rewrite Hgen. exists serial. split; [exact Hser |].
  assert (Hk : kmalloc_ok k2 = kmalloc_ok k)
    by (rewrite Halloc, Hk1; reflexivity).
  unfold devm_kmemdup. rewrite Hk.
  destruct (kmalloc_ok k).
  - match goal with
    | |- context [put_device d ?k3] =>
        destruct (put_device d k3) as [[] k4] eqn:Hput;
        replace k4 with (snd (put_device d k3)) by (rewrite Hput; reflexivity)
    end.
    split; [reflexivity |]. intros d'. cbn [snd].
    apply refcount_get_put. simpl. rewrite Hrefs, Hk1. reflexivity.
  - destruct (put_device d k2) as [[] k4] eqn:Hput.
    replace k4 with (snd (put_device d k2)) by (rewrite Hput; reflexivity).
    split; [reflexivity |]. intros d'. cbn [snd].
    apply refcount_get_put. rewrite Hrefs, Hk1. reflexivity.
Qed.

(** C4: for every unsigned 32-bit index read from "trio-mac-idx" and every
    serial contribution in [0, 229375), the six-byte address produced by
    the vendor serial-derived step is valid by construction: its first byte
    is the fixed even value 0x00, so the multicast bit is clear, and the
    address is not all-zero; hence the address [of_get_trio_mac_addr]
    returns without re-running the validity check passes that check. *)
Theorem generated_address_valid :
  (forall serial idx : Z,
      0 <= serial < 229375 -> 0 <= idx < 2 ^ 32 ->
      let mac := mac_bytes (to_u64 (BASE_MAC_ADDRESS + serial * NUM_TRIO_MACS + to_int idx)) in
      List.length mac = 6%nat /\ nth 0 mac 0 = 0x00 /\
      Z.even (nth 0 mac 0) = true /\ is_multicast_ether_addr mac = false /\
      mac <> [0; 0; 0; 0; 0; 0] /\ is_valid_ether_addr mac = true) /\
  (forall (np : device_node) (k : kernel) (d : platform_device) (idx : Z),
      pdev_of np = Some d ->
      of_property_read_u32 np "trio-mac-idx" = Ok idx ->
      kmalloc_ok k = true ->
      exists mac,
        fst (of_get_trio_mac_addr np k) = Ptr mac /\
        List.length mac = 6%nat /\ nth 0 mac 0 = 0x00 /\
        mac <> [0; 0; 0; 0; 0; 0] /\ is_valid_ether_addr mac = true).
Proof.
  assert (Hpure : forall serial idx : Z,
      0 <= serial < 229375 ->
      let mac := mac_bytes (to_u64 (BASE_MAC_ADDRESS + serial * NUM_TRIO_MACS + to_int idx)) in
      List.length mac = 6%nat /\ nth 0 mac 0 = 0x00 /\
      Z.even (nth 0 mac 0) = true /\ is_multicast_ether_addr mac = false /\
      mac <> [0; 0; 0; 0; 0; 0] /\ is_valid_ether_addr mac = true).
  { intros serial idx Hs mac. subst mac.
    pose proof (generated_for_u32 serial idx Hs) as Hval.
    set (val := to_u64 (BASE_MAC_ADDRESS + serial * NUM_TRIO_MACS + to_int idx)) in *.
    pose proof (mac_bytes_first_zero val ltac:(lia)) as Hfirst.
    split; [reflexivity |]. split; [exact Hfirst |].
    unfold is_multicast_ether_addr. rewrite Hfirst.
    split; [reflexivity |]. split; [reflexivity |].
    split; [| apply mac_bytes_valid; exact Hval].
    intros Hz. apply mac_bytes_zero in Hz; lia. }
  split.
  - intros serial idx Hs _. apply Hpure. exact Hs.
  - intros np k d idx Hpdev Hread Halloc.
    destruct (of_get_trio_mac_addr_generated np k d idx Hpdev Hread)
      as (serial & Hs & Hres & _).
    rewrite Halloc in Hres. eexists. split; [exact Hres |].
    destruct (Hpure serial idx Hs) as (Hlen & Hfirst & _ & _ & Hnz & Hvalid).
    repeat split; assumption.
Qed.

Lemma generated_address_valid_witness :
  exists mac,
    fst (of_get_trio_mac_addr
           (node_of [prop "trio-mac-idx" [0xff; 0xff; 0xff; 0xff]] (Some eth0))
           (boot (Some (root_with_serial "229374")) true)) = Ptr mac /\
    List.length mac = 6%nat /\ nth 0 mac 0 = 0x00 /\
    mac <> [0; 0; 0; 0; 0; 0] /\ is_valid_ether_addr mac = true.
Proof.
  apply (proj2 generated_address_valid
           (node_of [prop "trio-mac-idx" [0xff; 0xff; 0xff; 0xff]] (Some eth0))
           (boot (Some (root_with_serial "229374")) true) eth0 0xffffffff).
  - reflexivity.
  - reflexivity.
  - reflexivity.
Defined.

(** ** The fallback chain *)

(** C7: the fallback priority order is respected: for every node whose
    "mac-address" property holds a valid six-byte address, that exact
    address is returned, whatever the later sources hold, and no later
    source is consulted (the kernel state is left as it was). *)
Theorem mac_address_has_priority (np : device_node) (k : kernel) (pp : property) :
  of_find_property np "mac-address" = Some pp ->
  length_of pp = ETH_ALEN ->
  is_valid_ether_addr (value pp) = true ->
  of_get_mac_address np k = (Ptr (value pp), k).
Proof.
  intros Hfind Hlen Hvalid.
  unfold of_get_mac_address, of_get_mac_addr.
  rewrite Hfind, Hlen, Hvalid. reflexivity.
Qed.

Lemma mac_address_has_priority_witness :
  of_get_mac_address
    (node_of [prop "local-mac-address" [0x02; 0xAA; 0xBB; 0xCC; 0xDD; 0xEE];
              prop "trio-mac-idx" [0; 0; 0; 1];
              prop "mac-address" [0x00; 0x11; 0x22; 0x33; 0x44; 0x55]]
             (Some eth0))
    (boot (Some (root_with_serial "5")) true) =
  (Ptr [0x00; 0x11; 0x22; 0x33; 0x44; 0x55],
   boot (Some (root_with_serial "5")) true).
Proof.
  apply (mac_address_has_priority
           (node_of [prop "local-mac-address" [0x02; 0xAA; 0xBB; 0xCC; 0xDD; 0xEE];
                     prop "trio-mac-idx" [0; 0; 0; 1];
                     prop "mac-address" [0x00; 0x11; 0x22; 0x33; 0x44; 0x55]]
                    (Some eth0))
           (boot (Some (root_with_serial "5")) true)
           (prop "mac-address" [0x00; 0x11; 0x22; 0x33; 0x44; 0x55])).
  - reflexivity.
  - reflexivity.
  - reflexivity.
Defined.

(** C8 (against the validity check as the spec defines it): the check
    shared by the "mac-address", "local-mac-address", "address" and
    "nvmem-mac-address" steps rejects every candidate whose byte length is
    not exactly 6, every all-zero six-byte address, and every address with
    the multicast bit (the least-significant bit of the first byte) set:
    the step then yields nothing. *)
Theorem of_get_mac_addr_rejects (np : device_node) (propname : string) (pp : property) :
  of_find_property np propname = Some pp ->
  List.length (value pp) <> 6%nat \/
  value pp = [0; 0; 0; 0; 0; 0] \/
  Z.testbit (nth 0 (value pp) 0) 0 = true ->
  of_get_mac_addr np propname = NULL /\
  non_null (of_get_mac_addr np propname) = false.
Proof.
  intros Hfind Hbad.
  assert (Hnull : of_get_mac_addr np propname = NULL).
  { unfold of_get_mac_addr. rewrite Hfind.
    destruct Hbad as [Hlen | [Hzero | Hmulti]].
    - replace (length_of pp =? ETH_ALEN) with false; [reflexivity |].
      symmetry. apply Z.eqb_neq. unfold length_of, ETH_ALEN. lia.
    - rewrite Hzero. change (is_valid_ether_addr [0; 0; 0; 0; 0; 0]) with false.
      rewrite Bool.andb_false_r. reflexivity.
    - unfold is_valid_ether_addr, is_multicast_ether_addr. rewrite Hmulti.
      simpl. rewrite Bool.andb_false_r. reflexivity. }
  rewrite Hnull. split; reflexivity.
Qed.

Lemma of_get_mac_addr_rejects_witness :
  of_get_mac_addr (node_of [prop "address" [0x01; 0x00; 0x5E; 0x00; 0x00; 0x01]] None)
    "address" = NULL /\
  non_null (of_get_mac_addr
              (node_of [prop "address" [0x01; 0x00; 0x5E; 0x00; 0x00; 0x01]] None)
              "address") = false.
Proof.
  apply (of_get_mac_addr_rejects
           (node_of [prop "address" [0x01; 0x00; 0x5E; 0x00; 0x00; 0x01]] None)
           "address" (prop "address" [0x01; 0x00; 0x5E; 0x00; 0x00; 0x01])).
  - reflexivity.
  - right. right. reflexivity.
Defined.

(** The skip that the vendor step does implement: with a device bound to
    the node and no readable "trio-mac-idx", it returns [NULL] and the
    chain goes on to "local-mac-address". *)
Lemma vendor_step_skipped (np : device_node) (k : kernel)
    (d : platform_device) (e : Z) (pp : property) :
  of_get_mac_addr np "mac-address" = NULL ->
  pdev_of np = Some d ->
  of_property_read_u32 np "trio-mac-idx" = Err e ->
  of_find_property np "local-mac-address" = Some pp ->
  length_of pp = ETH_ALEN ->
  is_valid_ether_addr (value pp) = true ->
  fst (of_get_mac_address np k) = Ptr (value pp).
Proof.
  intros Hmac Hpdev Hread Hfind Hlen Hvalid.
  unfold of_get_mac_address. rewrite Hmac. cbn [non_null].
  unfold of_get_trio_mac_addr, of_find_device_by_node, bind, ret.
  rewrite Hpdev, Hread.
  destruct (get_device d k) as [[] k1]. cbn [non_null].
  unfold of_get_mac_addr. rewrite Hfind, Hlen, Hvalid. reflexivity.
Qed.

(** C1 (the code departs from the claim): when "mac-address"
    yields nothing and the vendor serial-derived step fails, because no
    device is bound to the node or because the buffer cannot be allocated,
    [of_get_mac_address] returns that step's error ([-ENODEV], [-ENOMEM])
    whatever "local-mac-address", "address" and "nvmem-mac-address" hold:
    the later steps are not tried. *)
Theorem vendor_step_error_returned (np : device_node) (k : kernel) :
  of_get_mac_addr np "mac-address" = NULL ->
  (pdev_of np = None ->
   of_get_mac_address np k = (ERR_PTR (- ENODEV), k)) /\
  (forall (d : platform_device) (idx : Z),
      pdev_of np = Some d ->
      of_property_read_u32 np "trio-mac-idx" = Ok idx ->
      kmalloc_ok k = false ->
      fst (of_get_mac_address np k) = ERR_PTR (- ENOMEM)).
Proof.
  intros Hmac. split.
  - intros Hpdev. unfold of_get_mac_address. rewrite Hmac. cbn [non_null].
    unfold of_get_trio_mac_addr, of_find_device_by_node, bind, ret.
    rewrite Hpdev. reflexivity.
  - intros d idx Hpdev Hread Halloc.
    destruct (of_get_trio_mac_addr_generated np k d idx Hpdev Hread)
      as (serial & _ & Hres & _).
    rewrite Halloc in Hres.
    unfold of_get_mac_address. rewrite Hmac. cbn [non_null]. unfold bind.
    destruct (of_get_trio_mac_addr np k) as [addr k1]. simpl in Hres.
    subst addr. reflexivity.
Qed.

Lemma vendor_step_error_returned_witness :
  of_get_mac_address
    (node_of [prop "local-mac-address" [0x02; 0xAA; 0xBB; 0xCC; 0xDD; 0xEE]] None)
    (boot None true) =
  (ERR_PTR (- ENODEV), boot None true).
Proof.
  apply (proj1 (vendor_step_error_returned
                  (node_of [prop "local-mac-address" [0x02; 0xAA; 0xBB; 0xCC; 0xDD; 0xEE]] None)
                  (boot None true) eq_refl)).
  reflexivity.
Defined.

(** C2 (the code departs from the claim): with a device bound to
    the node and "trio-mac-idx" absent or unreadable,
    [of_get_trio_mac_addr] returns [NULL] still holding the reference that
    the device lookup acquired: the count of that device is one higher
    after the call. *)
Theorem of_get_trio_mac_addr_keeps_reference (np : device_node) (k : kernel)
    (d : platform_device) (e : Z) :
  pdev_of np = Some d ->
  of_property_read_u32 np "trio-mac-idx" = Err e ->
  fst (of_get_trio_mac_addr np k) = NULL /\
  refcount (snd (of_get_trio_mac_addr np k)) (dev d) = refcount k (dev d) + 1.
Proof.
  intros Hpdev Hread.
  unfold of_get_trio_mac_addr, of_find_device_by_node, bind, ret.
  rewrite Hpdev, Hread.
  destruct (get_device d k) as [[] k1] eqn:Hget.
  split; [reflexivity |]. cbn [snd].
  replace k1 with (snd (get_device d k)) by (rewrite Hget; reflexivity).
  rewrite refcount_get_device.
  destruct (decide (dev d = dev d)); [reflexivity | contradiction].
Qed.

Lemma of_get_trio_mac_addr_keeps_reference_witness :
  fst (of_get_trio_mac_addr (node_of [] (Some eth0)) (boot None true)) = NULL /\
  refcount (snd (of_get_trio_mac_addr (node_of [] (Some eth0)) (boot None true)))
    (dev eth0) =
  refcount (boot None true) (dev eth0) + 1.
Proof.
  apply (of_get_trio_mac_addr_keeps_reference
           (node_of [] (Some eth0)) (boot None true) eth0 (- EINVAL)).
  - reflexivity.
  - reflexivity.
Defined.

(** ** PHY modes *)

Lemma tolower_zero (c : Z) : tolower c = 0 <-> c = 0.
Proof.
  unfold tolower.
  destruct ((65 <=? c) && (c <=? 90)) eqn:Hup; [| reflexivity].
  apply Bool.andb_true_iff in Hup as [Hlo Hhi]. lia.
Qed.

(** [strcasecmp] answers 0 exactly on strings that agree up to case. *)
Lemma strcasecmp_zero (s1 s2 : string) :
  strcasecmp s1 s2 = 0 <-> casefold s1 = casefold s2.
Proof.
  revert s2. induction s1 as [| c1 s1 IH]; intros [| c2 s2];
    unfold casefold; cbn [strcasecmp head_code c_chars].
  - split; reflexivity.
  - change (tolower 0) with 0. pose proof (tolower_zero (code c2)) as Hz.
    destruct (Z.eqb_spec 0 (tolower (code c2))) as [E | E]; cbn [andb negb Z.eqb].
    + destruct (Z.eqb_spec (code c2) 0) as [E2 | E2]; [| lia].
      split; [reflexivity | lia].
    + destruct (Z.eqb_spec (code c2) 0) as [E2 | E2]; [lia |].
      split; [lia | discriminate].
  - change (tolower 0) with 0. pose proof (tolower_zero (code c1)) as Hz.
    destruct (Z.eqb_spec (tolower (code c1)) 0) as [E | E]; cbn [andb negb].
    + destruct (Z.eqb_spec (code c1) 0) as [E1 | E1]; [| lia].
      split; [reflexivity | lia].
    + destruct (Z.eqb_spec (code c1) 0) as [E1 | E1]; [lia |].
      split; [lia | discriminate].
  - pose proof (tolower_zero (code c1)) as Hz1.
    pose proof (tolower_zero (code c2)) as Hz2.
    destruct (Z.eqb_spec (tolower (code c1)) (tolower (code c2))) as [E | E];
      destruct (Z.eqb_spec (tolower (code c1)) 0) as [E0 | E0]; cbn [andb negb].
    + destruct (Z.eqb_spec (code c1) 0); [| lia].
      destruct (Z.eqb_spec (code c2) 0); [| lia].
      split; [reflexivity | lia].
    + destruct (Z.eqb_spec (code c1) 0); [lia |].
      destruct (Z.eqb_spec (code c2) 0); [lia |].
      cbn [List.map]. rewrite IH. unfold casefold. split.
      * intros ->. rewrite E. reflexivity.
      * intros [= _ Ht]. exact Ht.
    + destruct (Z.eqb_spec (code c1) 0); [| lia].
      destruct (Z.eqb_spec (code c2) 0); [lia |].
      split; [lia | discriminate].
    + destruct (Z.eqb_spec (code c1) 0); [lia |].
      destruct (Z.eqb_spec (code c2) 0).
      * split; [lia | discriminate].
      * cbn [List.map]. split; [lia |]. intros [= Hh _]. contradiction.
Qed.

Section PhyModeResolution.

Variable phy_modes : Z -> string.
Variable PHY_INTERFACE_MODE_MAX : Z.

Lemma phy_mode_scan_first (pm : string) (n : nat) (i j : Z) :
  i <= j < i + Z.of_nat n ->
  strcasecmp pm (phy_modes j) = 0 ->
  (forall j', i <= j' < j -> strcasecmp pm (phy_modes j') <> 0) ->
  phy_mode_scan phy_modes pm i n = j.
Proof.
  revert i. induction n as [| n IH]; intros i Hj Hmatch Hfirst; [lia |].
  cbn [phy_mode_scan].
  destruct (Z.eqb_spec (strcasecmp pm (phy_modes i)) 0) as [E | E].
  - destruct (Z.eq_dec i j) as [-> | Hne]; [reflexivity |].
    exfalso. apply (Hfirst i); [lia | exact E].
  - assert (i <> j) by (intros ->; contradiction).
    apply IH; [lia | exact Hmatch |].
    intros j' Hj'. apply Hfirst. lia.
Qed.

Lemma phy_mode_scan_none (pm : string) (n : nat) (i : Z) :
  (forall j, i <= j < i + Z.of_nat n -> strcasecmp pm (phy_modes j) <> 0) ->
  phy_mode_scan phy_modes pm i n = - ENODEV.
Proof.
  revert i. induction n as [| n IH]; intros i Hnone; [reflexivity |].
  cbn [phy_mode_scan].
  destruct (Z.eqb_spec (strcasecmp pm (phy_modes i)) 0) as [E | E].
  - exfalso. apply (Hnone i); [lia | exact E].
  - apply IH. intros j Hj. apply Hnone. lia.
Qed.

(** C9: for every string obtained from "phy-mode" (or, when that one
    cannot be read, from "phy-connection-type") that matches an entry of
    the mode-name table case-insensitively, [of_get_phy_mode] returns
    the index of the first matching entry; when the string matches no
    entry it fails with [-ENODEV] (Invalid); when both properties are
    absent it fails with the property reader's error for an absent
    property, [-EINVAL] (NotFound). *)
Theorem of_get_phy_mode_resolves (np : device_node) :
  (forall pm : string,
      of_property_read_string np "phy-mode" = Ok pm \/
      (exists e, of_property_read_string np "phy-mode" = Err e /\
                 of_property_read_string np "phy-connection-type" = Ok pm) ->
      (forall i : Z,
          0 <= i < PHY_INTERFACE_MODE_MAX ->
          casefold pm = casefold (phy_modes i) ->
          (forall j, 0 <= j < i -> casefold pm <> casefold (phy_modes j)) ->
          of_get_phy_mode phy_modes PHY_INTERFACE_MODE_MAX np = i) /\
      ((forall j, 0 <= j < PHY_INTERFACE_MODE_MAX ->
                  casefold pm <> casefold (phy_modes j)) ->
       of_get_phy_mode phy_modes PHY_INTERFACE_MODE_MAX np = - ENODEV)) /\
  (of_find_property np "phy-mode" = None ->
   of_find_property np "phy-connection-type" = None ->
   of_get_phy_mode phy_modes PHY_INTERFACE_MODE_MAX np = - EINVAL).
Proof.
  split.
  - intros pm Hread.
    assert (Hscan : of_get_phy_mode phy_modes PHY_INTERFACE_MODE_MAX np =
                    phy_mode_scan phy_modes pm 0 (Z.to_nat PHY_INTERFACE_MODE_MAX)).
    { unfold of_get_phy_mode.
      destruct Hread as [Hpm | (e & Hpm & Hpct)].
      - rewrite Hpm. reflexivity.
      - rewrite Hpm, Hpct. reflexivity. }
    rewrite Hscan. split.
    + intros i Hi Hmatch Hfirst. apply phy_mode_scan_first.
      * lia.
      * apply strcasecmp_zero. exact Hmatch.
      * intros j Hj Hz. apply (Hfirst j); [lia |].
        apply strcasecmp_zero. exact Hz.
    + intros Hnone. apply phy_mode_scan_none.
      intros j Hj Hz. apply (Hnone j); [lia |].
      apply strcasecmp_zero. exact Hz.
  - intros Hpm Hpct. unfold of_get_phy_mode, of_property_read_string.
    rewrite Hpm, Hpct. reflexivity.
Qed.

End PhyModeResolution.

Lemma of_get_phy_mode_resolves_witness :
  of_get_phy_mode sample_modes 3
    (node_of [prop "phy-connection-type" (string_value "RgMiI")] None) = 1.
Proof.
  apply (proj1 (proj1 (of_get_phy_mode_resolves sample_modes 3
                         (node_of [prop "phy-connection-type" (string_value "RgMiI")] None))
                  "RgMiI"
                  (or_intror (ex_intro _ (- EINVAL) (conj eq_refl eq_refl))))
           1).
  - lia.
  - reflexivity.
  - intros j Hj. assert (j = 0) as -> by lia. discriminate.
Defined.

(** * Further properties *)

(** ** The reversal and the byte encoding *)

Lemma low_byte (x : Z) : Z.land x 0xff = x mod 256.
Proof. change 0xff with (Z.ones 8). apply Z.land_ones. lia. Qed.

Lemma mac_bytes_arith (val : Z) :
  mac_bytes val =
  [ (val / 2 ^ 40) mod 256; (val / 2 ^ 32) mod 256; (val / 2 ^ 24) mod 256;
    (val / 2 ^ 16) mod 256; (val / 2 ^ 8) mod 256; val mod 256 ].
Proof.
  unfold mac_bytes. rewrite !low_byte, !Z.shiftr_div_pow2 by lia. reflexivity.
Qed.

Lemma mac_value_of_bytes (val : Z) :
  0 <= val < 2 ^ 48 -> mac_value (mac_bytes val) = val.
Proof.
  intros Hval. rewrite mac_bytes_arith. unfold mac_value. cbn [fold_left].
  Z.div_mod_to_equations. lia.
Qed.

Lemma mac_bytes_inj (val val' : Z) :
  0 <= val < 2 ^ 48 -> 0 <= val' < 2 ^ 48 ->
  mac_bytes val' = mac_bytes val -> val' = val.
Proof.
  intros Hval Hval' Heq.
  rewrite <- (mac_value_of_bytes val'), <- (mac_value_of_bytes val) by assumption.
  rewrite Heq. reflexivity.
Qed.

(** X1: the six bytes stored by [of_get_trio_mac_addr] are the big-endian
    encoding of the low 48 bits of the value: each byte lies in [0, 256),
    and read most significant byte first they spell the value back, so
    that two values below 2^48 with the same bytes are equal. *)
Theorem mac_bytes_round_trip (val : Z) :
  0 <= val < 2 ^ 48 ->
  Forall (fun b => 0 <= b < 256) (mac_bytes val) /\
  mac_value (mac_bytes val) = val /\
  (forall val', 0 <= val' < 2 ^ 48 -> mac_bytes val' = mac_bytes val -> val' = val).
Proof.
  intros Hval. split; [| split].
  - rewrite mac_bytes_arith.
    repeat constructor; apply Z.mod_pos_bound; lia.
  - apply mac_value_of_bytes. exact Hval.
  - intros val' Hval' Heq. apply mac_bytes_inj; assumption.
Qed.

Lemma mac_bytes_round_trip_witness :
  Forall (fun b => 0 <= b < 256) (mac_bytes 0x001EFBF8000C) /\
  mac_value (mac_bytes 0x001EFBF8000C) = 0x001EFBF8000C /\
  (forall val', 0 <= val' < 2 ^ 48 ->
                mac_bytes val' = mac_bytes 0x001EFBF8000C -> val' = 0x001EFBF8000C).
Proof.
  apply (mac_bytes_round_trip 0x001EFBF8000C). lia.
Defined.

(** X2: the reversal reads only the low 48 bits of the forward value: for
    any forward value at all, bits 48 and up make no difference, and
    reversing twice gives the forward value truncated to 48 bits. *)
Theorem reversed_of_low_48_bits (forward : Z) :
  reversed_of forward = reversed_of (forward mod 2 ^ 48) /\
  reversed_of (reversed_of forward) = forward mod 2 ^ 48.
Proof.
  assert (Hlow : reversed_of forward = reversed_of (forward mod 2 ^ 48)).
  { apply Z.bits_inj'. intros n Hn. rewrite !reversed_of_bits by lia.
    destruct (Z.ltb_spec n 48) as [H48 | H48]; [| reflexivity].
    cbn [andb]. rewrite Z.testbit_mod_pow2 by lia.
    replace (n + 40 - 16 * (n / 8) <? 48) with true
      by (symmetry; apply Z.ltb_lt; Z.div_mod_to_equations; lia).
    reflexivity. }
  split; [exact Hlow |].
  rewrite Hlow. apply reversed_of_twice. apply Z.mod_pos_bound. lia.
Qed.

(** ** More on the generator *)

(** The serial contribution depends on the tree alone, not on the index. *)
Lemma trio_generate_mac_serial (k : kernel) :
  exists serial,
    0 <= serial < 229375 /\
    (forall idx, fst (trio_generate_mac idx k) =
                 to_u64 (BASE_MAC_ADDRESS + serial * NUM_TRIO_MACS + idx)) /\
    (forall root pserial parsed,
        of_root k = Some root ->
        of_property_read_string root "serial-number" = Ok pserial ->
        kstrtoll pserial 0 = Ok parsed ->
        1 <= parsed < 229375 -> serial = parsed) /\
    ((forall root pserial parsed,
        of_root k = Some root ->
        of_property_read_string root "serial-number" = Ok pserial ->
        kstrtoll pserial 0 = Ok parsed ->
        parsed < 1 \/ 229375 <= parsed) -> serial = 0).
Proof.
  unfold trio_generate_mac, bind, of_find_root.
  destruct (of_root k) as [root |] eqn:Hroot.
  - destruct (of_property_read_string root "serial-number") as [pserial | e] eqn:Hread.
    + destruct (kstrtoll pserial 0) as [parsed | e] eqn:Hparse.
      * destruct ((0 <? 0) || (parsed <? 1) || (parsed >=? 229375)) eqn:Hc.
        -- exists 0. split; [lia |]. split; [reflexivity |].
           apply Bool.orb_true_iff in Hc as [Hc | Hc];
             [apply Bool.orb_true_iff in Hc as [Hc | Hc]; [discriminate |] |].
           ++ split; [| reflexivity].
              intros r p v [= <-]. rewrite Hread. intros [= <-].
              rewrite Hparse. intros [= <-]. lia.
           ++ split; [| reflexivity].
              intros r p v [= <-]. rewrite Hread. intros [= <-].
              rewrite Hparse. intros [= <-]. lia.
        -- apply Bool.orb_false_elim in Hc as [Hc Hhi].
           apply Bool.orb_false_elim in Hc as [_ Hlo].
           exists parsed. split; [lia |]. split; [reflexivity |]. split.
           ++ intros r p v [= <-]. rewrite Hread. intros [= <-].
              rewrite Hparse. intros [= <-] _. reflexivity.
           ++ intros Hout.
              destruct (Hout root pserial parsed eq_refl Hread Hparse); lia.
      * replace ((e <? 0) || (0 <? 1) || (0 >=? 229375)) with true
          by (destruct (e <? 0); reflexivity).
        exists 0. split; [lia |]. split; [reflexivity |].
        split; [| reflexivity].
        intros r p v [= <-]. rewrite Hread. intros [= <-].
        rewrite Hparse. discriminate.
    + exists 0. split; [lia |].
      split; [intros idx; cbn [fst]; rewrite Z.add_0_r; reflexivity |].
      split; [| reflexivity].
      intros r p v [= <-]. rewrite Hread. discriminate.
  - exists 0. split; [lia |].
    split; [intros idx; cbn [fst]; rewrite Z.add_0_r; reflexivity |].
    split; [| reflexivity].
    intros r p v. discriminate.
Qed.

(** X3: for one device, consecutive indices give consecutive addresses
    ([generate (idx + 1) = generate idx + 1]); and two devices whose serial
    numbers are both accepted never share an address: if the six bytes
    generated for index [i1] on one and index [i2] on the other agree,
    with both indices below [NUM_TRIO_MACS], then the serial numbers agree
    and so do the indices. *)
Theorem generated_addresses_distinct :
  (forall (k : kernel) (idx : Z),
      is_int idx -> is_int (idx + 1) ->
      fst (trio_generate_mac (idx + 1) k) = fst (trio_generate_mac idx k) + 1) /\
  (forall (k1 k2 : kernel) (root1 root2 : device_node) (ps1 ps2 : string)
          (s1 s2 i1 i2 : Z),
      of_root k1 = Some root1 ->
      of_property_read_string root1 "serial-number" = Ok ps1 ->
      kstrtoll ps1 0 = Ok s1 -> 1 <= s1 < 229375 ->
      of_root k2 = Some root2 ->
      of_property_read_string root2 "serial-number" = Ok ps2 ->
      kstrtoll ps2 0 = Ok s2 -> 1 <= s2 < 229375 ->
      0 <= i1 < NUM_TRIO_MACS -> 0 <= i2 < NUM_TRIO_MACS ->
      mac_bytes (fst (trio_generate_mac i1 k1)) =
      mac_bytes (fst (trio_generate_mac i2 k2)) ->
      s1 = s2 /\ i1 = i2).
Proof.
  split.
  - intros k idx Hidx Hnext.
    destruct (trio_generate_mac_serial k) as (serial & Hs & Hval & _).
    rewrite !Hval, !generated_fits by assumption. lia.
  - intros k1 k2 root1 root2 ps1 ps2 s1 s2 i1 i2
      Hr1 Hp1 Hk1 Hs1 Hr2 Hp2 Hk2 Hs2 Hi1 Hi2 Hbytes.
    unfold NUM_TRIO_MACS in Hi1, Hi2.
    rewrite (trio_generate_mac_accepted k1 root1 ps1 s1 i1) in Hbytes by assumption.
    rewrite (trio_generate_mac_accepted k2 root2 ps2 s2 i2) in Hbytes by assumption.
    rewrite !generated_fits in Hbytes by (unfold is_int; lia).
    assert (Hv1 : 0 <= BASE_MAC_ADDRESS + s1 * NUM_TRIO_MACS + i1 < 2 ^ 48)
      by (unfold BASE_MAC_ADDRESS, NUM_TRIO_MACS; lia).
    assert (Hv2 : 0 <= BASE_MAC_ADDRESS + s2 * NUM_TRIO_MACS + i2 < 2 ^ 48)
      by (unfold BASE_MAC_ADDRESS, NUM_TRIO_MACS; lia).
    apply (mac_bytes_inj _ _ Hv2 Hv1) in Hbytes.
    unfold NUM_TRIO_MACS in Hbytes. lia.
Qed.

Lemma generated_addresses_distinct_witness :
  fst (trio_generate_mac (0 + 1) (boot (Some (root_with_serial "7")) true)) =
  fst (trio_generate_mac 0 (boot (Some (root_with_serial "7")) true)) + 1.
Proof.
  apply (proj1 generated_addresses_distinct
           (boot (Some (root_with_serial "7")) true) 0);
    unfold is_int; lia.
Defined.

(** X4: when the tree has no root, or the root has no readable
    "serial-number", the generator returns [BASE_MAC_ADDRESS + idx],
    writes nothing to the kernel log and touches no device. *)
Theorem trio_generate_mac_without_serial (k : kernel) (idx : Z) :
  is_int idx ->
  of_root k = None \/
  (exists root e, of_root k = Some root /\
                  of_property_read_string root "serial-number" = Err e) ->
  fst (trio_generate_mac idx k) = BASE_MAC_ADDRESS + idx /\
  dmesg (snd (trio_generate_mac idx k)) = dmesg k /\
  same_devices k (snd (trio_generate_mac idx k)).
Proof.
  intros Hidx Hno.
  pose proof (generated_fits 0 idx ltac:(lia) Hidx) as Hfit.
  rewrite Z.add_0_r in Hfit.
  unfold trio_generate_mac, bind, of_find_root, same_devices.
  destruct Hno as [Hroot | (root & e & Hroot & Hread)].
  - rewrite Hroot. cbn [fst snd ret]. repeat split; assumption.
  - rewrite Hroot, Hread. cbn [fst snd ret of_root device_refs devres kmalloc_ok dmesg].
    repeat split; assumption.
Qed.

Lemma trio_generate_mac_without_serial_witness :
  fst (trio_generate_mac 1 (boot (Some (node_of [] None)) true)) =
    BASE_MAC_ADDRESS + 1 /\
  dmesg (snd (trio_generate_mac 1 (boot (Some (node_of [] None)) true))) =
    dmesg (boot (Some (node_of [] None)) true) /\
  same_devices (boot (Some (node_of [] None)) true)
    (snd (trio_generate_mac 1 (boot (Some (node_of [] None)) true))).
Proof.
  apply (trio_generate_mac_without_serial (boot (Some (node_of [] None)) true) 1).
  - unfold is_int. lia.
  - right. exists (node_of [] None), (- EINVAL). split; reflexivity.
Defined.

(** X5: when the root has a readable "serial-number", the generator logs
    the address it returns: with an accepted serial number it appends
    exactly the informational line carrying the index and the returned
    value; with a serial number that does not parse or is out of range it
    appends the out-of-range error line first, then that informational
    line. *)
Theorem trio_generate_mac_logs (k : kernel) (root : device_node)
    (pserial : string) (idx : Z) :
  of_root k = Some root ->
  of_property_read_string root "serial-number" = Ok pserial ->
  let generated := fst (trio_generate_mac idx k) in
  let log := dmesg (snd (trio_generate_mac idx k)) in
  (forall serial, kstrtoll pserial 0 = Ok serial -> 1 <= serial < 229375 ->
                  log = (dmesg k ++ [KERN_INFO_generated_mac idx generated])%list) /\
  ((forall serial, kstrtoll pserial 0 = Ok serial ->
                   serial < 1 \/ 229375 <= serial) ->
   log = (dmesg k ++ [KERN_ERR_serial_out_of_range;
                      KERN_INFO_generated_mac idx generated])%list).
Proof.
  intros Hroot Hread generated log. split.
  - intros serial Hparse Hrange. subst generated log.
    unfold trio_generate_mac, bind, of_find_root.
    rewrite Hroot, Hread, Hparse.
    replace ((0 <? 0) || (serial <? 1) || (serial >=? 229375)) with false;
      [reflexivity |].
    symmetry. apply Bool.orb_false_intro; [apply Bool.orb_false_intro |]; lia.
  - intros Hout. subst generated log.
    destruct (trio_generate_mac_degraded k root pserial idx Hroot Hread Hout)
      as [Hval Hlog].
    rewrite Hlog, Hval. reflexivity.
Qed.

Lemma trio_generate_mac_logs_witness :
  dmesg (snd (trio_generate_mac 1 (boot (Some (root_with_serial "5")) true))) =
  [KERN_INFO_generated_mac 1 0x001EFBF8000C].
Proof.
  apply (proj1 (trio_generate_mac_logs (boot (Some (root_with_serial "5")) true)
                  (root_with_serial "5") "5" 1 eq_refl eq_refl) 5).
  - reflexivity.
  - lia.
Defined.

Lemma return_trio_mac_reversed_run (idx : Z) (k : kernel) :
  return_trio_mac_reversed idx k =
  (reversed_of (fst (return_trio_mac idx k)), snd (return_trio_mac idx k)).
Proof.
  unfold return_trio_mac_reversed, bind, ret.
  destruct (return_trio_mac idx k) as [forward k']. reflexivity.
Qed.

(** X6: [return_trio_mac_reversed] is [return_trio_mac] followed by the
    reversal: it leaves the kernel in the state the forward call leaves,
    its six bytes are those of the forward value in reverse order, and
    for an [int] index reversing its result gives the forward value back. *)
Theorem return_trio_mac_reversed_of_forward (idx : Z) (k : kernel) :
  snd (return_trio_mac_reversed idx k) = snd (return_trio_mac idx k) /\
  mac_bytes (fst (return_trio_mac_reversed idx k)) =
    rev (mac_bytes (fst (return_trio_mac idx k))) /\
  (is_int idx ->
   reversed_of (fst (return_trio_mac_reversed idx k)) =
   fst (return_trio_mac idx k)).
Proof.
  rewrite return_trio_mac_reversed_run. cbn [fst snd].
  split; [reflexivity |]. split; [apply mac_bytes_reversed |].
  intros Hidx. apply reversed_of_twice. unfold return_trio_mac.
  destruct (trio_generate_mac_serial k) as (serial & Hs & Hval & _).
  rewrite Hval, generated_fits by assumption.
  unfold is_int, BASE_MAC_ADDRESS, NUM_TRIO_MACS in *. lia.
Qed.

Lemma return_trio_mac_reversed_of_forward_witness :
  reversed_of (fst (return_trio_mac_reversed 1 (boot (Some (root_with_serial "5")) true))) =
  fst (return_trio_mac 1 (boot (Some (root_with_serial "5")) true)).
Proof.
  apply (proj2 (proj2 (return_trio_mac_reversed_of_forward 1
                         (boot (Some (root_with_serial "5")) true)))).
  unfold is_int. lia.
Defined.

(** ** More on the vendor step *)

(** The generated value depends on the kernel state through the tree only. *)
Lemma trio_generate_mac_root_only (idx : Z) (k1 k2 : kernel) :
  of_root k1 = of_root k2 ->
  fst (trio_generate_mac idx k1) = fst (trio_generate_mac idx k2).
Proof.
  intros Hroot. unfold trio_generate_mac, bind, of_find_root. rewrite Hroot.
  destruct (of_root k2) as [root |]; [| reflexivity].
  destruct (of_property_read_string root "serial-number") as [pserial | e];
    [| reflexivity].
  destruct (kstrtoll pserial 0) as [parsed | e].
  - destruct ((0 <? 0) || (parsed <? 1) || (parsed >=? 229375)); reflexivity.
  - destruct ((e <? 0) || (0 <? 1) || (0 >=? 229375)); reflexivity.
Qed.

(** With a device and a readable index, the vendor step returns the bytes
    of the generator's value at that index converted to [int], and hands
    the device one buffer holding them. *)
Lemma of_get_trio_mac_addr_value (np : device_node) (k : kernel)
    (d : platform_device) (idx : Z) :
  pdev_of np = Some d ->
  of_property_read_u32 np "trio-mac-idx" = Ok idx ->
  kmalloc_ok k = true ->
  fst (of_get_trio_mac_addr np k) =
    Ptr (mac_bytes (fst (trio_generate_mac (to_int idx) k))) /\
  devres (snd (of_get_trio_mac_addr np k)) =
    (devres k ++ [(dev d, mac_bytes (fst (trio_generate_mac (to_int idx) k)))])%list.
Proof.
  intros Hpdev Hread Halloc.
  unfold of_get_trio_mac_addr, of_find_device_by_node, return_trio_mac.
  rewrite Hpdev, Hread. unfold bind, ret.
  destruct (get_device d k) as [[] k1] eqn:Hget.
  assert (Hk1 : k1 = snd (get_device d k)) by (rewrite Hget; reflexivity).
  rewrite (trio_generate_mac_root_only (to_int idx) k k1)
    by (rewrite Hk1; reflexivity).
  destruct (trio_generate_mac_spec (to_int idx) k1)
    as (serial & k2 & Hgen & _ & _ & _ & Hres & Hmem).
  rewrite Hgen. cbn [fst].
  unfold devm_kmemdup.
  replace (kmalloc_ok k2) with true
    by (rewrite Hmem, Hk1; symmetry; exact Halloc).
  match goal with
  | |- context [put_device d ?k3] =>
      destruct (put_device d k3) as [[] k4] eqn:Hput;
      replace k4 with (snd (put_device d k3)) by (rewrite Hput; reflexivity)
  end.
  cbn [fst snd]. split; [reflexivity |].
  unfold put_device. cbn. rewrite Hres, Hk1. reflexivity.
Qed.

(** X7: the u32 read from "trio-mac-idx" is passed on as an [int]: with
    an accepted serial number, an index below 2^31 is added to the base
    as it is, while an index of 2^31 or more counts as [idx - 2^32], so
    the address lies below the block of the device. *)
Theorem trio_mac_idx_taken_as_int (np : device_node) (k : kernel)
    (d : platform_device) (idx : Z) (root : device_node) (pserial : string)
    (serial : Z) :
  pdev_of np = Some d ->
  of_property_read_u32 np "trio-mac-idx" = Ok idx ->
  kmalloc_ok k = true ->
  of_root k = Some root ->
  of_property_read_string root "serial-number" = Ok pserial ->
  kstrtoll pserial 0 = Ok serial ->
  1 <= serial < 229375 ->
  fst (of_get_trio_mac_addr np k) =
  Ptr (mac_bytes (BASE_MAC_ADDRESS + serial * NUM_TRIO_MACS +
                  (if idx <? 2 ^ 31 then idx else idx - 2 ^ 32))).
Proof.
  intros Hpdev Hread Halloc Hroot Hserial Hparse Hrange.
  destruct (of_get_trio_mac_addr_value np k d idx Hpdev Hread Halloc) as [Hval _].
  rewrite Hval.
  rewrite (trio_generate_mac_accepted k root pserial serial) by assumption.
  rewrite generated_fits by (lia || apply to_int_range).
  pose proof (of_property_read_u32_range np "trio-mac-idx" idx Hread) as Hidx.
  do 3 f_equal. unfold to_int.
  destruct (Z.ltb_spec idx (2 ^ 31)).
  - rewrite Z.mod_small by lia. lia.
  - replace (idx + 2 ^ 31) with (idx - 2 ^ 31 + 1 * 2 ^ 32) by lia.
    rewrite Z.mod_add by lia. rewrite Z.mod_small by lia. lia.
Qed.

Lemma trio_mac_idx_taken_as_int_witness :
  fst (of_get_trio_mac_addr
         (node_of [prop "trio-mac-idx" [0xff; 0xff; 0xff; 0xff]] (Some eth0))
         (boot (Some (root_with_serial "5")) true)) =
  Ptr (mac_bytes (BASE_MAC_ADDRESS + 5 * NUM_TRIO_MACS +
                  (if 0xffffffff <? 2 ^ 31 then 0xffffffff else 0xffffffff - 2 ^ 32))).
Proof.
  apply (trio_mac_idx_taken_as_int
           (node_of [prop "trio-mac-idx" [0xff; 0xff; 0xff; 0xff]] (Some eth0))
           (boot (Some (root_with_serial "5")) true) eth0 0xffffffff
           (root_with_serial "5") "5" 5).
  - reflexivity.
  - reflexivity.
  - reflexivity.
  - reflexivity.
  - reflexivity.
  - reflexivity.
  - lia.
Defined.

(** X8: the vendor step has priority over every later source: when
    "mac-address" yields nothing, a device is bound to the node,
    "trio-mac-idx" is readable and the buffer can be allocated,
    [of_get_mac_address] returns the generated address, whatever
    "local-mac-address", "address", "nvmem-mac-address" and the nvmem cell
    hold. *)
Theorem vendor_step_has_priority (np : device_node) (k : kernel)
    (d : platform_device) (idx : Z) :
  of_get_mac_addr np "mac-address" = NULL ->
  pdev_of np = Some d ->
  of_property_read_u32 np "trio-mac-idx" = Ok idx ->
  kmalloc_ok k = true ->
  fst (of_get_mac_address np k) =
  Ptr (mac_bytes (fst (trio_generate_mac (to_int idx) k))).
Proof.
  intros Hmac Hpdev Hread Halloc.
  destruct (of_get_trio_mac_addr_value np k d idx Hpdev Hread Halloc) as [Hval _].
  unfold of_get_mac_address. rewrite Hmac. cbn [non_null]. unfold bind.
  destruct (of_get_trio_mac_addr np k) as [addr k1]. cbn [fst] in Hval.
  subst addr. reflexivity.
Qed.

Lemma vendor_step_has_priority_witness :
  fst (of_get_mac_address
         (node_of [prop "local-mac-address" [0x02; 0xAA; 0xBB; 0xCC; 0xDD; 0xEE];
                   prop "trio-mac-idx" [0; 0; 0; 1]] (Some eth0))
         (boot (Some (root_with_serial "5")) true)) =
  Ptr (mac_bytes (fst (trio_generate_mac (to_int 1)
                         (boot (Some (root_with_serial "5")) true)))).
Proof.
  apply (vendor_step_has_priority
           (node_of [prop "local-mac-address" [0x02; 0xAA; 0xBB; 0xCC; 0xDD; 0xEE];
                     prop "trio-mac-idx" [0; 0; 0; 1]] (Some eth0))
           (boot (Some (root_with_serial "5")) true) eth0 1).
  - reflexivity.
  - reflexivity.
  - reflexivity.
  - reflexivity.
Defined.

(** ** More on the property steps and the nvmem step *)

(** X9: [of_get_mac_addr] returns an address exactly when the named
    property exists, is six bytes long and passes the validity check, and
    then it returns the bytes of the property; it never returns an error
    pointer, and an absent property gives [NULL]. *)
Theorem of_get_mac_addr_result (np : device_node) (propname : string) :
  (forall a, of_get_mac_addr np propname = Ptr a <->
             exists pp, of_find_property np propname = Some pp /\ value pp = a /\
                        List.length a = 6%nat /\ is_valid_ether_addr a = true) /\
  (forall e, of_get_mac_addr np propname <> ERR_PTR e) /\
  (of_find_property np propname = None -> of_get_mac_addr np propname = NULL).
Proof.
  unfold of_get_mac_addr.
  destruct (of_find_property np propname) as [pp |].
  - destruct (Z.eqb_spec (length_of pp) ETH_ALEN) as [Hlen | Hlen];
      destruct (is_valid_ether_addr (value pp)) eqn:Hvalid; cbn [andb].
    + split; [| split; [discriminate | discriminate]].
      intros a. split.
      * intros [= <-]. exists pp. repeat split; try assumption.
        unfold length_of, ETH_ALEN in Hlen. lia.
      * intros (pp' & [= <-] & <- & _). reflexivity.
    + split; [| split; [discriminate | discriminate]].
      intros a. split; [discriminate |].
      intros (pp' & [= <-] & <- & _ & Hv). congruence.
    + split; [| split; [discriminate | discriminate]].
      intros a. split; [discriminate |].
      intros (pp' & [= <-] & <- & Hl & _).
      unfold length_of, ETH_ALEN in Hlen. lia.
    + split; [| split; [discriminate | discriminate]].
      intros a. split; [discriminate |].
      intros (pp' & [= <-] & <- & Hl & _).
      unfold length_of, ETH_ALEN in Hlen. lia.
  - split; [| split; [discriminate | reflexivity]].
    intros a. split; [discriminate |]. intros (pp' & Hf & _). discriminate.
Qed.

Lemma of_get_mac_addr_result_witness :
  of_get_mac_addr (node_of [prop "address" [0x02; 0; 0; 0; 0; 1]] None)
    "local-mac-address" = NULL.
Proof.
  apply (proj2 (proj2 (of_get_mac_addr_result
                         (node_of [prop "address" [0x02; 0; 0; 0; 0; 1]] None)
                         "local-mac-address"))).
  reflexivity.
Defined.

Lemma of_get_mac_addr_nvmem_run (np : device_node) (k : kernel) (d : platform_device) :
  pdev_of np = Some d ->
  fst (of_get_mac_addr_nvmem np k) =
    (if negb (nvmem_ret d =? 0) then ERR_PTR (nvmem_ret d)
     else if kmalloc_ok k then Ptr (firstn 6 (nvmem_buf d))
          else ERR_PTR (- ENOMEM)) /\
  devres (snd (of_get_mac_addr_nvmem np k)) =
    (if negb (nvmem_ret d =? 0) then devres k
     else if kmalloc_ok k then (devres k ++ [(dev d, firstn 6 (nvmem_buf d))])%list
          else devres k).
Proof.
  intros Hpdev.
  unfold of_get_mac_addr_nvmem, of_find_device_by_node.
  rewrite Hpdev. unfold bind, nvmem_get_mac_address, ret, get_device, put_device.
  destruct (negb (nvmem_ret d =? 0)); [split; reflexivity |].
  unfold devm_kmemdup. cbn [kmalloc_ok set_device_refs].
  destruct (kmalloc_ok k); split; reflexivity.
Qed.

(** X10: the nvmem step never returns [NULL]: without a device bound to
    the node it returns [-ENODEV] and leaves the kernel as it was; a
    non-zero return code of the storage lookup is passed on unchanged,
    with nothing allocated; on success it returns the first six bytes of
    what the storage returned, without a validity check, in a buffer
    handed to the device, or [-ENOMEM] when that buffer cannot be
    allocated. *)
Theorem of_get_mac_addr_nvmem_outcomes (np : device_node) (k : kernel) :
  non_null (fst (of_get_mac_addr_nvmem np k)) = true /\
  (pdev_of np = None ->
   of_get_mac_addr_nvmem np k = (ERR_PTR (- ENODEV), k)) /\
  (forall d, pdev_of np = Some d -> nvmem_ret d <> 0 ->
             fst (of_get_mac_addr_nvmem np k) = ERR_PTR (nvmem_ret d) /\
             devres (snd (of_get_mac_addr_nvmem np k)) = devres k) /\
  (forall d, pdev_of np = Some d -> nvmem_ret d = 0 ->
             (kmalloc_ok k = true ->
              fst (of_get_mac_addr_nvmem np k) = Ptr (firstn 6 (nvmem_buf d)) /\
              devres (snd (of_get_mac_addr_nvmem np k)) =
                (devres k ++ [(dev d, firstn 6 (nvmem_buf d))])%list) /\
             (kmalloc_ok k = false ->
              fst (of_get_mac_addr_nvmem np k) = ERR_PTR (- ENOMEM) /\
              devres (snd (of_get_mac_addr_nvmem np k)) = devres k)).
Proof.
  split; [| split; [| split]].
  - destruct (pdev_of np) as [d |] eqn:Hpdev.
    + destruct (of_get_mac_addr_nvmem_run np k d Hpdev) as [Hres _].
      rewrite Hres.
      destruct (Z.eqb_spec (nvmem_ret d) 0) as [Hz | Hnz]; cbn [negb].
      * destruct (kmalloc_ok k); reflexivity.
      * cbn [non_null]. apply Bool.negb_true_iff. apply Z.eqb_neq. exact Hnz.
    + unfold of_get_mac_addr_nvmem, of_find_device_by_node.
      rewrite Hpdev. reflexivity.
  - intros Hpdev. unfold of_get_mac_addr_nvmem, of_find_device_by_node.
    rewrite Hpdev. reflexivity.
  - intros d Hpdev Hnz.
    destruct (of_get_mac_addr_nvmem_run np k d Hpdev) as [Hres Hdev].
    rewrite Hres, Hdev.
    replace (nvmem_ret d =? 0) with false by (symmetry; apply Z.eqb_neq; exact Hnz).
    split; reflexivity.
  - intros d Hpdev Hz.
    destruct (of_get_mac_addr_nvmem_run np k d Hpdev) as [Hres Hdev].
    rewrite Hres, Hdev, Hz. cbn [Z.eqb negb].
    split; intros ->; split; reflexivity.
Qed.

Lemma of_get_mac_addr_nvmem_outcomes_witness :
  fst (of_get_mac_addr_nvmem (node_of [] (Some eth0)) (boot None true)) =
    ERR_PTR (nvmem_ret eth0) /\
  devres (snd (of_get_mac_addr_nvmem (node_of [] (Some eth0)) (boot None true))) =
    devres (boot None true).
Proof.
  apply (proj1 (proj2 (proj2 (of_get_mac_addr_nvmem_outcomes
                                (node_of [] (Some eth0)) (boot None true))))
           eth0).
  - reflexivity.
  - discriminate.
Defined.

(** X11: the nvmem step releases the device reference it acquires on each
    of its exits: for every device the reference count after the call is
    the count before it; and the step writes nothing to the kernel log. *)
Theorem of_get_mac_addr_nvmem_releases (np : device_node) (k : kernel) :
  (forall d', refcount (snd (of_get_mac_addr_nvmem np k)) d' = refcount k d') /\
  dmesg (snd (of_get_mac_addr_nvmem np k)) = dmesg k.
Proof.
  split; [intros d'; apply of_get_mac_addr_nvmem_balanced |].
  unfold of_get_mac_addr_nvmem, of_find_device_by_node.
  destruct (pdev_of np) as [d |]; [| reflexivity].
  unfold bind, nvmem_get_mac_address, ret, get_device, put_device.
  destruct (negb (nvmem_ret d =? 0)); [reflexivity |].
  unfold devm_kmemdup. cbn [kmalloc_ok set_device_refs].
  destruct (kmalloc_ok k); reflexivity.
Qed.

(** ** More on the fallback chain *)

(** What is left of the chain once "mac-address" has yielded nothing and
    the vendor step has returned [NULL]: it runs in the state the device
    lookup of the vendor step left. *)
Lemma of_get_mac_address_after_skip (np : device_node) (k : kernel)
    (d : platform_device) (e : Z) :
  of_get_mac_addr np "mac-address" = NULL ->
  pdev_of np = Some d ->
  of_property_read_u32 np "trio-mac-idx" = Err e ->
  of_get_mac_address np k =
  (if non_null (of_get_mac_addr np "local-mac-address")
   then (of_get_mac_addr np "local-mac-address", snd (get_device d k))
   else if non_null (of_get_mac_addr np "address")
   then (of_get_mac_addr np "address", snd (get_device d k))
   else if non_null (of_get_mac_addr np "nvmem-mac-address")
   then (of_get_mac_addr np "nvmem-mac-address", snd (get_device d k))
   else of_get_mac_addr_nvmem np (snd (get_device d k))).
Proof.
  intros Hmac Hpdev Hread.
  unfold of_get_mac_address. rewrite Hmac. cbn [non_null].
  unfold of_get_trio_mac_addr, of_find_device_by_node, bind, ret.
  rewrite Hpdev, Hread.
  destruct (get_device d k) as [[] k1]. cbn [non_null snd].
  destruct (non_null (of_get_mac_addr np "local-mac-address")); [reflexivity |].
  destruct (non_null (of_get_mac_addr np "address")); [reflexivity |].
  destruct (non_null (of_get_mac_addr np "nvmem-mac-address")); reflexivity.
Qed.

Lemma of_get_mac_addr_accepts (np : device_node) (propname : string) (pp : property) :
  of_find_property np propname = Some pp ->
  length_of pp = ETH_ALEN ->
  is_valid_ether_addr (value pp) = true ->
  of_get_mac_addr np propname = Ptr (value pp).
Proof.
  intros Hfind Hlen Hvalid. unfold of_get_mac_addr.
  rewrite Hfind, Hlen, Hvalid. reflexivity.
Qed.

(** X12: past the vendor step (a device is bound to the node and
    "trio-mac-idx" cannot be read) the properties are tried in the order
    "local-mac-address", "address", "nvmem-mac-address": a valid
    "local-mac-address" is returned whatever the other two hold; a
    rejected "local-mac-address" (all-zero, say) is skipped and a valid
    "address" returned; and "nvmem-mac-address" is returned when it is
    valid and the two before it are rejected. *)
Theorem later_properties_in_order (np : device_node) (k : kernel)
    (d : platform_device) (e : Z) (pp : property) :
  of_get_mac_addr np "mac-address" = NULL ->
  pdev_of np = Some d ->
  of_property_read_u32 np "trio-mac-idx" = Err e ->
  length_of pp = ETH_ALEN ->
  is_valid_ether_addr (value pp) = true ->
  (of_find_property np "local-mac-address" = Some pp ->
   fst (of_get_mac_address np k) = Ptr (value pp)) /\
  (of_get_mac_addr np "local-mac-address" = NULL ->
   of_find_property np "address" = Some pp ->
   fst (of_get_mac_address np k) = Ptr (value pp)) /\
  (of_get_mac_addr np "local-mac-address" = NULL ->
   of_get_mac_addr np "address" = NULL ->
   of_find_property np "nvmem-mac-address" = Some pp ->
   fst (of_get_mac_address np k) = Ptr (value pp)).
Proof.
  intros Hmac Hpdev Hread Hlen Hvalid.
  rewrite (of_get_mac_address_after_skip np k d e Hmac Hpdev Hread).
  split; [| split].
  - intros Hfind.
    rewrite (of_get_mac_addr_accepts np "local-mac-address" pp) by assumption.
    reflexivity.
  - intros Hlocal Hfind. rewrite Hlocal. cbn [non_null].
    rewrite (of_get_mac_addr_accepts np "address" pp) by assumption.
    reflexivity.
  - intros Hlocal Haddress Hfind. rewrite Hlocal, Haddress. cbn [non_null].
    rewrite (of_get_mac_addr_accepts np "nvmem-mac-address" pp) by assumption.
    reflexivity.
Qed.

Lemma later_properties_in_order_witness :
  fst (of_get_mac_address
         (node_of [prop "local-mac-address" [0; 0; 0; 0; 0; 0];
                   prop "address" [0xAA; 0xBB; 0xCC; 0xDD; 0xEE; 0xFF]] (Some eth0))
         (boot None true)) =
  Ptr [0xAA; 0xBB; 0xCC; 0xDD; 0xEE; 0xFF].
Proof.
  apply (proj1 (proj2 (later_properties_in_order
                         (node_of [prop "local-mac-address" [0; 0; 0; 0; 0; 0];
                                   prop "address" [0xAA; 0xBB; 0xCC; 0xDD; 0xEE; 0xFF]]
                                  (Some eth0))
                         (boot None true) eth0 (- EINVAL)
                         (prop "address" [0xAA; 0xBB; 0xCC; 0xDD; 0xEE; 0xFF])
                         eq_refl eq_refl eq_refl eq_refl eq_refl))).
  - reflexivity.
  - reflexivity.
Defined.

(** X13: when every property step yields nothing and the vendor step is
    skipped, the caller gets the outcome of the nvmem step as it is: the
    storage lookup's error code unchanged, [-ENOMEM] when the buffer
    cannot be allocated, and otherwise the first six bytes the storage
    returned, which are not put through the validity check. *)
Theorem nvmem_outcome_surfaces (np : device_node) (k : kernel)
    (d : platform_device) (e : Z) :
  of_get_mac_addr np "mac-address" = NULL ->
  pdev_of np = Some d ->
  of_property_read_u32 np "trio-mac-idx" = Err e ->
  of_get_mac_addr np "local-mac-address" = NULL ->
  of_get_mac_addr np "address" = NULL ->
  of_get_mac_addr np "nvmem-mac-address" = NULL ->
  fst (of_get_mac_address np k) =
  (if negb (nvmem_ret d =? 0) then ERR_PTR (nvmem_ret d)
   else if kmalloc_ok k then Ptr (firstn 6 (nvmem_buf d))
        else ERR_PTR (- ENOMEM)).
Proof.
  intros Hmac Hpdev Hread Hlocal Haddress Hnvmem.
  rewrite (of_get_mac_address_after_skip np k d e Hmac Hpdev Hread).
  rewrite Hlocal, Haddress, Hnvmem. cbn [non_null].
  destruct (of_get_mac_addr_nvmem_run np (snd (get_device d k)) d Hpdev)
    as [Hres _].
  rewrite Hres. reflexivity.
Qed.

Lemma nvmem_outcome_surfaces_witness :
  fst (of_get_mac_address
         (node_of [] (Some {| dev := 0%nat; nvmem_ret := 0;
                              nvmem_buf := [0; 0; 0; 0; 0; 0] |}))
         (boot None true)) =
  Ptr [0; 0; 0; 0; 0; 0].
Proof.
  apply (nvmem_outcome_surfaces
           (node_of [] (Some {| dev := 0%nat; nvmem_ret := 0;
                                nvmem_buf := [0; 0; 0; 0; 0; 0] |}))
           (boot None true)
           {| dev := 0%nat; nvmem_ret := 0; nvmem_buf := [0; 0; 0; 0; 0; 0] |}
           (- EINVAL)); reflexivity.
Defined.

Lemma of_get_trio_mac_addr_no_device (np : device_node) (k : kernel) :
  pdev_of np = None ->
  of_get_trio_mac_addr np k = (ERR_PTR (- ENODEV), k).
Proof.
  intros Hpdev. unfold of_get_trio_mac_addr, of_find_device_by_node, bind, ret.
  rewrite Hpdev. reflexivity.
Qed.

Lemma non_null_of_get_mac_addr_nvmem (np : device_node) (k : kernel) :
  non_null (fst (of_get_mac_addr_nvmem np k)) = true.
Proof.
  destruct (pdev_of np) as [d |] eqn:Hpdev.
  - destruct (of_get_mac_addr_nvmem_run np k d Hpdev) as [Hres _].
    rewrite Hres.
    destruct (Z.eqb_spec (nvmem_ret d) 0) as [Hz | Hnz]; cbn [negb].
    + destruct (kmalloc_ok k); reflexivity.
    + cbn [non_null]. apply Bool.negb_true_iff. apply Z.eqb_neq. exact Hnz.
  - unfold of_get_mac_addr_nvmem, of_find_device_by_node.
    rewrite Hpdev. reflexivity.
Qed.

(** X14: [of_get_mac_address] never returns [NULL]: its result is an
    address or an error pointer, as its header comment promises. *)
Theorem of_get_mac_address_never_null (np : device_node) (k : kernel) :
  non_null (fst (of_get_mac_address np k)) = true.
Proof.
  unfold of_get_mac_address.
  destruct (non_null (of_get_mac_addr np "mac-address")) eqn:H1; [exact H1 |].
  unfold bind. destruct (of_get_trio_mac_addr np k) as [addr k1].
  destruct (non_null addr) eqn:H2; [exact H2 |].
  destruct (non_null (of_get_mac_addr np "local-mac-address")) eqn:H3; [exact H3 |].
  destruct (non_null (of_get_mac_addr np "address")) eqn:H4; [exact H4 |].
  destruct (non_null (of_get_mac_addr np "nvmem-mac-address")) eqn:H5; [exact H5 |].
  apply non_null_of_get_mac_addr_nvmem.
Qed.

(** X15: the vendor step leaves the reference counts as they were on its
    exits other than the [NULL] one: without a device bound to the node
    it returns [-ENODEV] in an unchanged kernel state, and with a
    readable "trio-mac-idx" the count of every device after the call is
    the count before it, whether the buffer could be allocated or not. *)
Theorem of_get_trio_mac_addr_balanced_exits (np : device_node) (k : kernel) :
  (pdev_of np = None ->
   of_get_trio_mac_addr np k = (ERR_PTR (- ENODEV), k)) /\
  (forall d idx,
      pdev_of np = Some d ->
      of_property_read_u32 np "trio-mac-idx" = Ok idx ->
      forall d', refcount (snd (of_get_trio_mac_addr np k)) d' = refcount k d').
Proof.
  split; [apply of_get_trio_mac_addr_no_device |].
  intros d idx Hpdev Hread.
  destruct (of_get_trio_mac_addr_generated np k d idx Hpdev Hread)
    as (_ & _ & _ & Hbal).
  exact Hbal.
Qed.

Lemma of_get_trio_mac_addr_balanced_exits_witness :
  refcount (snd (of_get_trio_mac_addr
                   (node_of [prop "trio-mac-idx" [0; 0; 0; 1]] (Some eth0))
                   (probed None false))) 0%nat =
  refcount (probed None false) 0%nat.
Proof.
  apply (proj2 (of_get_trio_mac_addr_balanced_exits
                  (node_of [prop "trio-mac-idx" [0; 0; 0; 1]] (Some eth0))
                  (probed None false)) eth0 1).
  - reflexivity.
  - reflexivity.
Defined.

(** X16: over a whole call of [of_get_mac_address] the reference counts
    change in one case only: when "mac-address" yields nothing, a device
    is bound to the node and "trio-mac-idx" cannot be read, the count of
    that device ends one higher, whichever later step answers; in every
    other case (a valid "mac-address", no device, or a readable index)
    all counts end as they started. *)
Theorem of_get_mac_address_references (np : device_node) (k : kernel) :
  (non_null (of_get_mac_addr np "mac-address") = true ->
   forall d', refcount (snd (of_get_mac_address np k)) d' = refcount k d') /\
  (pdev_of np = None ->
   forall d', refcount (snd (of_get_mac_address np k)) d' = refcount k d') /\
  (forall d idx,
      pdev_of np = Some d ->
      of_property_read_u32 np "trio-mac-idx" = Ok idx ->
      forall d', refcount (snd (of_get_mac_address np k)) d' = refcount k d') /\
  (forall d e,
      of_get_mac_addr np "mac-address" = NULL ->
      pdev_of np = Some d ->
      of_property_read_u32 np "trio-mac-idx" = Err e ->
      forall d', refcount (snd (of_get_mac_address np k)) d' =
                 if decide (dev d = d') then refcount k d' + 1 else refcount k d').
Proof.
  assert (Hfirst : non_null (of_get_mac_addr np "mac-address") = true ->
                   of_get_mac_address np k = (of_get_mac_addr np "mac-address", k)).
  { intros Hnn. unfold of_get_mac_address. rewrite Hnn. reflexivity. }
  split; [| split; [| split]].
  - intros Hnn d'. rewrite (Hfirst Hnn). reflexivity.
  - intros Hpdev d'.
    destruct (non_null (of_get_mac_addr np "mac-address")) eqn:Hnn;
      [rewrite (Hfirst eq_refl); reflexivity |].
    unfold of_get_mac_address. rewrite Hnn. unfold bind.
    rewrite (of_get_trio_mac_addr_no_device np k Hpdev). reflexivity.
  - intros d idx Hpdev Hread d'.
    destruct (non_null (of_get_mac_addr np "mac-address")) eqn:Hnn;
      [rewrite (Hfirst eq_refl); reflexivity |].
    destruct (of_get_trio_mac_addr_generated np k d idx Hpdev Hread)
      as (serial & _ & Hres & Hbal).
    unfold of_get_mac_address. rewrite Hnn. unfold bind.
    destruct (of_get_trio_mac_addr np k) as [addr k1].
    cbn [fst snd] in Hres, Hbal. subst addr.
    destruct (kmalloc_ok k).
    + cbn [non_null ret snd]. apply Hbal.
    + change (non_null (ERR_PTR (- ENOMEM))) with true. cbn [ret snd]. apply Hbal.
  - intros d e Hmac Hpdev Hread d'.
    rewrite (of_get_mac_address_after_skip np k d e Hmac Hpdev Hread).
    rewrite <- refcount_get_device.
    destruct (non_null (of_get_mac_addr np "local-mac-address")); [reflexivity |].
    destruct (non_null (of_get_mac_addr np "address")); [reflexivity |].
    destruct (non_null (of_get_mac_addr np "nvmem-mac-address")); [reflexivity |].
    apply of_get_mac_addr_nvmem_balanced.
Qed.

Lemma of_get_mac_address_references_witness :
  refcount (snd (of_get_mac_address
                   (node_of [prop "local-mac-address" [0x02; 0xAA; 0xBB; 0xCC; 0xDD; 0xEE]]
                            (Some eth0))
                   (probed None true))) 0%nat =
  if decide (dev eth0 = 0%nat) then refcount (probed None true) 0%nat + 1
  else refcount (probed None true) 0%nat.
Proof.
  apply (proj2 (proj2 (proj2 (of_get_mac_address_references
                                (node_of [prop "local-mac-address"
                                            [0x02; 0xAA; 0xBB; 0xCC; 0xDD; 0xEE]]
                                         (Some eth0))
                                (probed None true))))
           eth0 (- EINVAL)).
  - reflexivity.
  - reflexivity.
  - reflexivity.
Defined.

Lemma of_get_mac_addr_ptr_valid (np : device_node) (propname : string) (a : list Z) :
  of_get_mac_addr np propname = Ptr a ->
  List.length a = 6%nat /\ is_valid_ether_addr a = true.
Proof.
  unfold of_get_mac_addr.
  destruct (of_find_property np propname) as [pp |]; [| discriminate].
  destruct (Z.eqb_spec (length_of pp) ETH_ALEN) as [Hlen | Hlen]; [| discriminate].
  destruct (is_valid_ether_addr (value pp)) eqn:Hvalid; [| discriminate].
  intros [= <-]. split; [| exact Hvalid].
  unfold length_of, ETH_ALEN in Hlen. lia.
Qed.

Lemma of_get_trio_mac_addr_ptr_valid (np : device_node) (k : kernel) (a : list Z) :
  fst (of_get_trio_mac_addr np k) = Ptr a ->
  List.length a = 6%nat /\ is_valid_ether_addr a = true.
Proof.
  destruct (pdev_of np) as [d |] eqn:Hpdev.
  - destruct (of_property_read_u32 np "trio-mac-idx") as [idx | e] eqn:Hread.
    + destruct (of_get_trio_mac_addr_generated np k d idx Hpdev Hread)
        as (serial & Hs & Hres & _).
      rewrite Hres. destruct (kmalloc_ok k); [| discriminate].
      intros [= <-]. split; [reflexivity |].
      apply mac_bytes_valid. apply generated_for_u32. exact Hs.
    + unfold of_get_trio_mac_addr, of_find_device_by_node, bind, ret.
      rewrite Hpdev, Hread. destruct (get_device d k) as [[] k1]. discriminate.
  - rewrite (of_get_trio_mac_addr_no_device np k Hpdev). discriminate.
Qed.

(** X17: an address that [of_get_mac_address] returns is six bytes long
    and passes the validity check (not all-zero, multicast bit clear),
    unless it comes from the nvmem cell: the only address returned
    unchecked is the first six bytes the storage lookup of the bound
    device answered with return code 0. *)
Theorem of_get_mac_address_returns_valid (np : device_node) (k : kernel) (a : list Z) :
  fst (of_get_mac_address np k) = Ptr a ->
  (List.length a = 6%nat /\ is_valid_ether_addr a = true) \/
  (exists d, pdev_of np = Some d /\ nvmem_ret d = 0 /\ a = firstn 6 (nvmem_buf d)).
Proof.
  unfold of_get_mac_address.
  destruct (non_null (of_get_mac_addr np "mac-address"));
    [intros H; left; apply (of_get_mac_addr_ptr_valid np _ a H) |].
  unfold bind.
  pose proof (of_get_trio_mac_addr_ptr_valid np k a) as Htrio.
  destruct (of_get_trio_mac_addr np k) as [addr k1]. cbn [fst] in Htrio.
  destruct (non_null addr); [intros H; left; apply Htrio; exact H |].
  destruct (non_null (of_get_mac_addr np "local-mac-address"));
    [intros H; left; apply (of_get_mac_addr_ptr_valid np _ a H) |].
  destruct (non_null (of_get_mac_addr np "address"));
    [intros H; left; apply (of_get_mac_addr_ptr_valid np _ a H) |].
  destruct (non_null (of_get_mac_addr np "nvmem-mac-address"));
    [intros H; left; apply (of_get_mac_addr_ptr_valid np _ a H) |].
  intros H. right.
  destruct (pdev_of np) as [d |] eqn:Hpdev.
  - destruct (of_get_mac_addr_nvmem_run np k1 d Hpdev) as [Hres _].
    rewrite Hres in H.
    destruct (Z.eqb_spec (nvmem_ret d) 0) as [Hz | Hnz]; cbn [negb] in H;
      [| discriminate].
    destruct (kmalloc_ok k1); [| discriminate].
    injection H as <-. exists d. repeat split. exact Hz.
  - unfold of_get_mac_addr_nvmem, of_find_device_by_node in H.
    rewrite Hpdev in H. discriminate.
Qed.

Lemma of_get_mac_address_returns_valid_witness :
  (List.length [0x00; 0x11; 0x22; 0x33; 0x44; 0x55] = 6%nat /\
   is_valid_ether_addr [0x00; 0x11; 0x22; 0x33; 0x44; 0x55] = true) \/
  (exists d, pdev_of (node_of [prop "mac-address" [0x00; 0x11; 0x22; 0x33; 0x44; 0x55]] None)
             = Some d /\ nvmem_ret d = 0 /\
             [0x00; 0x11; 0x22; 0x33; 0x44; 0x55] = firstn 6 (nvmem_buf d)).
Proof.
  apply (of_get_mac_address_returns_valid
           (node_of [prop "mac-address" [0x00; 0x11; 0x22; 0x33; 0x44; 0x55]] None)
           (boot None true)).
  reflexivity.
Defined.

(** ** More on PHY modes *)

Lemma of_property_read_string_error (np : device_node) (propname : string) (e : Z) :
  of_property_read_string np propname = Err e -> e < 0.
Proof.
  unfold of_property_read_string.
  destruct (of_find_property np propname) as [pp |].
  - destruct (value pp) as [| b rest].
    + intros [= <-]. reflexivity.
    + destruct (c_string (b :: rest)); [discriminate |].
      intros [= <-]. reflexivity.
  - intros [= <-]. reflexivity.
Qed.

Section PhyModeSoundness.

Variable phy_modes : Z -> string.
Variable PHY_INTERFACE_MODE_MAX : Z.

Lemma phy_mode_scan_sound (pm : string) (n : nat) (i : Z) :
  phy_mode_scan phy_modes pm i n = - ENODEV \/
  (i <= phy_mode_scan phy_modes pm i n < i + Z.of_nat n /\
   strcasecmp pm (phy_modes (phy_mode_scan phy_modes pm i n)) = 0 /\
   forall j, i <= j < phy_mode_scan phy_modes pm i n ->
             strcasecmp pm (phy_modes j) <> 0).
Proof.
  revert i. induction n as [| n IH]; intros i; [left; reflexivity |].
  cbn [phy_mode_scan].
  destruct (Z.eqb_spec (strcasecmp pm (phy_modes i)) 0) as [E | E].
  - right. split; [lia |]. split; [exact E |]. intros j Hj. lia.
  - destruct (IH (i + 1)) as [Hnone | (Hrange & Hmatch & Hfirst)];
      [left; exact Hnone |].
    right. split; [lia |]. split; [exact Hmatch |].
    intros j Hj. destruct (Z.eq_dec j i) as [-> | Hne]; [exact E |].
    apply Hfirst. lia.
Qed.

(** X18: what [of_get_phy_mode] returns is never an index outside the
    table: a non-negative result lies below [PHY_INTERFACE_MODE_MAX] and
    is the first table entry that matches, case-insensitively, the string
    read from "phy-mode" or, failing that, from "phy-connection-type"; a
    negative result is [-ENODEV] or, when neither property can be read,
    the error of the read of "phy-connection-type". *)
Theorem of_get_phy_mode_sound (np : device_node) :
  let mode := of_get_phy_mode phy_modes PHY_INTERFACE_MODE_MAX np in
  (mode < 0 /\
   (mode = - ENODEV \/
    exists e, of_property_read_string np "phy-mode" = Err e /\
              of_property_read_string np "phy-connection-type" = Err mode)) \/
  (0 <= mode < PHY_INTERFACE_MODE_MAX /\
   exists pm,
     (of_property_read_string np "phy-mode" = Ok pm \/
      exists e, of_property_read_string np "phy-mode" = Err e /\
                of_property_read_string np "phy-connection-type" = Ok pm) /\
     casefold pm = casefold (phy_modes mode) /\
     forall j, 0 <= j < mode -> casefold pm <> casefold (phy_modes j)).
Proof.
  intros mode.
  assert (Hscan : forall pm,
      mode = phy_mode_scan phy_modes pm 0 (Z.to_nat PHY_INTERFACE_MODE_MAX) ->
      (mode < 0 /\ mode = - ENODEV) \/
      (0 <= mode < PHY_INTERFACE_MODE_MAX /\
       casefold pm = casefold (phy_modes mode) /\
       forall j, 0 <= j < mode -> casefold pm <> casefold (phy_modes j))).
  { intros pm ->.
    destruct (phy_mode_scan_sound pm (Z.to_nat PHY_INTERFACE_MODE_MAX) 0)
      as [Hnone | (Hrange & Hmatch & Hfirst)].
    - left. rewrite Hnone. split; reflexivity.
    - right. split; [lia |]. split; [apply strcasecmp_zero; exact Hmatch |].
      intros j Hj Hz. apply (Hfirst j Hj). apply strcasecmp_zero. exact Hz. }
  subst mode. unfold of_get_phy_mode in *.
  destruct (of_property_read_string np "phy-mode") as [pm | e1] eqn:H1.
  - destruct (Hscan pm eq_refl) as [[Hneg Hnone] | (Hrange & Hmatch & Hfirst)].
    + left. split; [exact Hneg | left; exact Hnone].
    + right. split; [exact Hrange |]. exists pm. repeat split; auto.
  - destruct (of_property_read_string np "phy-connection-type") as [pm | e2] eqn:H2.
    + destruct (Hscan pm eq_refl) as [[Hneg Hnone] | (Hrange & Hmatch & Hfirst)].
      * left. split; [exact Hneg | left; exact Hnone].
      * right. split; [exact Hrange |]. exists pm.
        split; [right; exists e1; split; reflexivity |]. split; assumption.
    + left. split; [apply (of_property_read_string_error np _ e2 H2) |].
      right. exists e1. split; reflexivity.
Qed.

End PhyModeSoundness.
